(** * Transaction categorizer: abbreviation expansion and reconciliation

    A shallow embedding of [src/app.py]: the dictionary loader
    ([load_abbreviation_dict]), the resolver
    ([resolve_abbreviation_with_llm]), the text expander
    ([expand_abbreviations]) and the part of the script that expands the
    remarks, builds the classification prompt and reconciles the classified
    rows with the transactions table.

    Python values are modelled as follows.
    - A [str] is the list of its Unicode code points ([pystr]); [split],
      [strip], [join] and [split_sep] follow the built-in methods.
    - A [dict] from abbreviations to candidate lists is a [gmap].
    - The language model is an explicit state [LLM] with a transition
      [chat]: one call consumes the prompt and yields the reply text and
      the next state, so two calls with one prompt may answer differently.
    - An exception is a value [Raise e] of the result type [res]; code that
      calls the model or raises runs in the monad [M].
    - A pandas table is a list of column labels and a list of rows, each a
      list of cells aligned with the labels; a cell is text or NaN.

    File upload, display, the parsing of the classifier's reply and the
    writing of the spreadsheet are input and output around these parts and
    are not modelled: reconciliation starts from the parsed records. *)

From Stdlib Require Import String Ascii ZArith NArith.
From stdpp Require Import gmap list fin_maps.

Local Open Scope N_scope.

(** ** Python strings *)

Module PyStr.

(** A string is the list of its code points. *)
Definition pystr : Type := list N.

(** The bytes of a literal of this file, read as UTF-8, give the code
    points of the Python literal with the same text. *)
Fixpoint utf8_decode (bs : list N) : pystr :=
  match bs with
  | [] => []
  | b0 :: r0 =>
    if b0 <? 192 then b0 :: utf8_decode r0
    else match r0 with
    | [] => [b0]
    | b1 :: r1 =>
      if b0 <? 224 then ((b0 - 192) * 64 + (b1 - 128)) :: utf8_decode r1
      else match r1 with
      | [] => [b0; b1]
      | b2 :: r2 =>
        if b0 <? 240
        then ((b0 - 224) * 4096 + (b1 - 128) * 64 + (b2 - 128)) :: utf8_decode r2
        else match r2 with
        | [] => [b0; b1; b2]
        | b3 :: r3 =>
          ((b0 - 240) * 262144 + (b1 - 128) * 4096 + (b2 - 128) * 64 + (b3 - 128))
            :: utf8_decode r3
        end
      end
    end
  end.

Definition lit (s : string) : pystr :=
  utf8_decode (List.map N_of_ascii (list_ascii_of_string s)).

(** [str.isspace] on one code point: the characters that [str.split()] and
    [str.strip()] treat as whitespace. *)
Definition isspace (c : N) : bool :=
  ((9 <=? c) && (c <=? 13)) || ((28 <=? c) && (c <=? 32))
  || (c =? 133) || (c =? 160) || (c =? 5760)
  || ((8192 <=? c) && (c <=? 8202))
  || (c =? 8232) || (c =? 8233) || (c =? 8239) || (c =? 8287) || (c =? 12288).

(** [s.lstrip()], [s.rstrip()] and [s.strip()]. *)
Fixpoint lstrip (s : pystr) : pystr :=
  match s with
  | [] => []
  | c :: s' => if isspace c then lstrip s' else s
  end.

Definition rstrip (s : pystr) : pystr := rev (lstrip (rev s)).

Definition strip (s : pystr) : pystr := rstrip (lstrip s).

(** [s.split()]: the maximal runs of non-whitespace characters, in order.
    A non-whitespace character either ends its word (the next character is
    whitespace or the end) or is put in front of the word that follows. *)
Fixpoint split (s : pystr) : list pystr :=
  match s with
  | [] => []
  | c :: s' =>
    if isspace c then split s'
    else match s' with
    | [] => [[c]]
    | c' :: _ =>
      if isspace c' then [c] :: split s'
      else match split s' with
      | w :: ws => (c :: w) :: ws
      | [] => [[c]]
      end
    end
  end.

(** [sep.join(ws)]. *)
Fixpoint join (sep : pystr) (ws : list pystr) : pystr :=
  match ws with
  | [] => []
  | [w] => w
  | w :: ws' => w ++ sep ++ join sep ws'
  end.

(** [s.startswith(p)]. *)
Fixpoint startswith (p s : pystr) : bool :=
  match p, s with
  | [], _ => true
  | _ :: _, [] => false
  | a :: p', b :: s' => (a =? b) && startswith p' s'
  end.

(** [s.split(sep)] for a non-empty [sep]: scan left to right; at a position
    where [sep] starts, close the current field and skip the separator.
    [skip] counts the separator characters still to pass over, [cur] is
    the current field, reversed. *)
Fixpoint split_sep_from (sep : pystr) (skip : nat) (cur : pystr) (s : pystr)
  : list pystr :=
  match s with
  | [] => [rev cur]
  | c :: s' =>
    match skip with
    | S k => split_sep_from sep k cur s'
    | O =>
      if startswith sep s
      then rev cur :: split_sep_from sep (length sep - 1) [] s'
      else split_sep_from sep 0 (c :: cur) s'
    end
  end.

Definition split_sep (sep s : pystr) : list pystr := split_sep_from sep 0 [] s.

End PyStr.
Export PyStr.


(** ** Exceptions and the language model *)

Inductive exn : Type := IndexError | KeyError | TypeError | ValueError.

Inductive res (A : Type) : Type :=
| Ok (a : A)
| Raise (e : exn).
Arguments Ok {A} a.
Arguments Raise {A} e.

Section Model.

(** The state of the language model and one call of [ollama.chat]: the
    prompt goes in, the text of [response["message"]["content"]] and the
    next state come out. *)
Context {LLM : Type} (chat : LLM → pystr → pystr * LLM).

(** A computation that may call the model and may raise. The state is
    kept when an exception is raised: the calls made before it happened. *)
Definition M (A : Type) : Type := LLM → res A * LLM.

Definition ret {A} (a : A) : M A := λ st, (Ok a, st).

Definition raise {A} (e : exn) : M A := λ st, (Raise e, st).

Definition bind {A B} (c : M A) (k : A → M B) : M B :=
  λ st, match c st with
        | (Ok a, st') => k a st'
        | (Raise e, st') => (Raise e, st')
        end.

Definition ask (prompt : pystr) : M pystr :=
  λ st, let '(content, st') := chat st prompt in (Ok content, st').

End Model.

Notation "x <- c ;; k" := (bind c (λ x, k))
  (at level 100, c at next level, right associativity).

(** [l[i]] on a Python list, for [i >= 0]. *)
Definition getitem {LLM A} (l : list A) (i : nat) : M (LLM := LLM) A :=
  match l !! i with
  | Some x => ret x
  | None => raise IndexError
  end.

(** [for x in xs: s = body(s, x)], stopping at the first exception. *)
Fixpoint for_each {LLM A S} (xs : list A) (s : S) (body : S → A → M (LLM := LLM) S)
  : M (LLM := LLM) S :=
  match xs with
  | [] => ret s
  | x :: xs' => s' <- body s x ;; for_each xs' s' body
  end.

(** ** Dictionary loader (source lines 15 to 37) *)

(** A row of the dictionary table, both cells text. A row with a blank
    cell, which is read as NaN, is outside this type: with a blank
    Abbreviation the loader raises AttributeError on [.split], and with a
    blank Full_words it stores a candidate that is not text. What is
    proved of the loader is proved of tables whose cells are all text. *)
Record dict_row : Type := { Full_words : pystr; Abbreviation : pystr }.

(** The body of the inner loop. *)
Definition add_candidate (full_word : pystr)
    (abbreviation_map : gmap pystr (list pystr)) (abbr : pystr)
  : gmap pystr (list pystr) :=
  match abbreviation_map !! abbr with
  | Some words => <[abbr := words ++ [full_word]]> abbreviation_map
  | None => <[abbr := [full_word]]> abbreviation_map
  end.

(** The body of the outer loop. *)
Definition add_row (abbreviation_map : gmap pystr (list pystr)) (row : dict_row)
  : gmap pystr (list pystr) :=
  let full_word := Full_words row in
  let abbreviations := split_sep (lit ", ") (Abbreviation row) in
  fold_left (add_candidate full_word) abbreviations abbreviation_map.

Definition load_abbreviation_dict (df : list dict_row) : gmap pystr (list pystr) :=
  fold_left add_row df ∅.

(** ** Resolver (source lines 40 to 76) *)

(** The fixed text of the resolver prompt (source lines 52 to 64), cut at
    the quotation marks and at the three substitutions. *)
Definition resolve_prompt_1 : pystr := lit "
    Bạn là một AI có nhiệm vụ giải thích các từ viết tắt trong giao dịch tài 
    chính. Dưới đây là ngữ cảnh:
    
    Giao dịch: ".

(** Between the context and the abbreviation. *)
Definition resolve_prompt_2 : pystr := lit "
    
    Từ viết tắt ".

(** Between the abbreviation and the candidate list. *)
Definition resolve_prompt_3 : pystr := lit " có thể mang nghĩa nào? Các từ sau có thể là 
    gợi ý từ từ điển: ".

(** After the candidate list. *)
Definition resolve_prompt_4 : pystr := lit ".
    
    Nếu có từ nào phù hợp hơn dựa trên ngữ cảnh, hãy sử dụng nó.
    
    Hãy trả lời chỉ bằng từ đúng nhất.
    ".

Definition quote : pystr := [34].

Definition resolve_prompt (abbreviation context : pystr)
    (possible_words : list pystr) : pystr :=
  resolve_prompt_1 ++ quote ++ context ++ quote
  ++ resolve_prompt_2 ++ quote ++ abbreviation ++ quote
  ++ resolve_prompt_3 ++ join (lit ", ") possible_words
  ++ resolve_prompt_4.

Section Expansion.

Context {LLM : Type} (chat : LLM → pystr → pystr * LLM).

Definition resolve_abbreviation_with_llm (abbreviation context : pystr)
    (possible_words : list pystr) : M (LLM := LLM) pystr :=
  let prompt := resolve_prompt abbreviation context possible_words in
  content <- ask chat prompt ;;
  let full_word := strip content in
  if bool_decide (full_word ∈ possible_words) then ret full_word
  else getitem possible_words 0.

(** ** Text expander (source lines 79 to 107) *)

(** The body of the loop over [words]; [expanded_words] is the list being
    appended to. *)
Definition expand_word (text : pystr)
    (abbreviation_map : gmap pystr (list pystr))
    (expanded_words : list pystr) (word : pystr) : M (LLM := LLM) (list pystr) :=
  match abbreviation_map !! word with
  | Some possible_words =>
    if (length possible_words =? 1)%nat then
      w <- getitem possible_words 0 ;;
      ret (expanded_words ++ [w])
    else
      w <- resolve_abbreviation_with_llm word text possible_words ;;
      ret (expanded_words ++ [w])
  | None => ret (expanded_words ++ [word])
  end.

Definition expand_abbreviations (text : pystr)
    (abbreviation_map : gmap pystr (list pystr)) : M (LLM := LLM) pystr :=
  let words := split text in
  expanded_words <- for_each words [] (expand_word text abbreviation_map) ;;
  ret (join (lit " ") expanded_words).

End Expansion.

(** ** Tables *)

(** A cell holds text or is missing (pandas shows a missing cell as NaN). *)
Inductive cell : Type := NaN | Str (s : pystr).

#[global] Instance cell_eq_dec : EqDecision cell.
Proof. solve_decision. Defined.

(** [str(x)] on a cell. *)
Definition str (x : cell) : pystr :=
  match x with
  | Str s => s
  | NaN => lit "nan"
  end.

(** A [DataFrame]: the column labels and the rows, each row aligned with
    the labels. *)
Record DataFrame : Type := { columns : list pystr; data : list (list cell) }.

(** Every row has one cell per column. *)
Definition rectangular (df : DataFrame) : Prop :=
  Forall (λ row, length row = length (columns df)) (data df).

(** [len(df)]. *)
Definition len (df : DataFrame) : nat := length (data df).

(** [columns.get_loc(label)]: the position of the first column so named. *)
Definition get_loc (cols : list pystr) (label : pystr) : option nat :=
  fst <$> list_find (λ c, c = label) cols.

(** The cell of [row] under [label]; NaN when the table has no such column. *)
Definition row_get (cols : list pystr) (row : list cell) (label : pystr) : cell :=
  match get_loc cols label with
  | Some i => default NaN (row !! i)
  | None => NaN
  end.

(** [df[label].tolist()]. *)
Definition column (df : DataFrame) (label : pystr) : res (list cell) :=
  match get_loc (columns df) label with
  | Some i => Ok (map (λ row, default NaN (row !! i)) (data df))
  | None => Raise KeyError
  end.

(** [df.iloc[:, 0].tolist()]. *)
Definition first_column (df : DataFrame) : res (list cell) :=
  match columns df with
  | [] => Raise IndexError
  | _ :: _ => Ok (map (λ row, default NaN (row !! 0%nat)) (data df))
  end.

(** [df[label] = values]: overwrite the column in place, or add it last. *)
Definition set_column (df : DataFrame) (label : pystr) (values : list cell)
  : res DataFrame :=
  if negb (length values =? len df)%nat then Raise ValueError
  else match get_loc (columns df) label with
  | Some i =>
    Ok {| columns := columns df;
          data := zip_with (λ row v, <[i := v]> row) (data df) values |}
  | None =>
    Ok {| columns := columns df ++ [label];
          data := zip_with (λ row v, row ++ [v]) (data df) values |}
  end.

(** [df[label] = value] with one value for all rows. *)
Definition set_column_scalar (df : DataFrame) (label : pystr) (value : cell)
  : DataFrame :=
  match get_loc (columns df) label with
  | Some i =>
    {| columns := columns df; data := map (λ row, <[i := value]> row) (data df) |}
  | None =>
    {| columns := columns df ++ [label];
       data := map (λ row, row ++ [value]) (data df) |}
  end.

(** [df.iloc[start:].copy()] for [start >= 0]. *)
Definition iloc_from (start : nat) (df : DataFrame) : DataFrame :=
  {| columns := columns df; data := drop start (data df) |}.

(** The labels [acc] followed by those of [labels] not yet present, in
    order of first appearance. *)
Definition union_labels (acc labels : list pystr) : list pystr :=
  fold_left (λ acc l, if bool_decide (l ∈ acc) then acc else acc ++ [l]) labels acc.

(** A parsed JSON object with text values: its keys, in order, with their
    values (a Python [dict]; keys are distinct). *)
Definition record : Type := list (pystr * cell).

Fixpoint record_get (r : record) (key : pystr) : option cell :=
  match r with
  | [] => None
  | (k, v) :: r' => if bool_decide (k = key) then Some v else record_get r' key
  end.

(** [pd.DataFrame(records)]: the columns are the keys in order of first
    appearance over all records; a record without a key has NaN there. *)
Definition DataFrame_of_records (records : list record) : DataFrame :=
  let cols := fold_left (λ acc r, union_labels acc (map fst r)) records [] in
  {| columns := cols;
     data := map (λ r, map (λ c, default NaN (record_get r c)) cols) records |}.

(** [pd.concat(dfs, ignore_index=True)]: the columns are the union of the
    columns in order of first appearance; the rows follow each other, each
    laid out under the new columns, NaN where its table had no such
    column. *)
Definition pd_concat (dfs : list DataFrame) : DataFrame :=
  let cols := fold_left (λ acc df, union_labels acc (columns df)) dfs [] in
  {| columns := cols;
     data := flat_map (λ df, map (λ row, map (row_get (columns df) row) cols) (data df)) dfs |}.

(** The cell in row [i] (from 0) under [label]. *)
Definition cell_at (df : DataFrame) (i : nat) (label : pystr) : option cell :=
  match data df !! i, get_loc (columns df) label with
  | Some row, Some j => Some (default NaN (row !! j))
  | _, _ => None
  end.

(** ** The script: expansion of the remarks and the classification prompt
    (source lines 135 to 165) *)

(** The fixed text of the classification prompt (source lines 156 to 165),
    cut at the two substitutions. *)
Definition classify_prompt_1 : pystr := lit "
    Bạn là một AI có nhiệm vụ phân loại giao dịch tài chính vào các danh mục 
    phù hợp. Danh mục có sẵn là: ".

(** Between the category list and the transactions. *)
Definition classify_prompt_2 : pystr := lit ".
    
    Hãy phân loại các giao dịch sau vào một trong các danh mục trên:
    ".

(** After the transactions. *)
Definition classify_prompt_3 : pystr := lit "
    
    Trả lời dưới dạng danh sách JSON gồm các từ điển chứa 'transaction' và 
    'category'.
    ".

(** The entries of a list handed to [str.join]: the join raises TypeError
    when an entry is not text. *)
Fixpoint texts (xs : list cell) : res (list pystr) :=
  match xs with
  | [] => Ok []
  | Str s :: xs' =>
    match texts xs' with
    | Ok ss => Ok (s :: ss)
    | Raise e => Raise e
    end
  | NaN :: _ => Raise TypeError
  end.

Definition lift {LLM A} (r : res A) : M (LLM := LLM) A :=
  match r with
  | Ok a => ret a
  | Raise e => raise e
  end.

(** The fallback label of source line 188. *)
Definition fallback_category : pystr := lit "Khác".

(** [series.astype(str)] on one cell. Text stays text. A missing cell
    becomes the text "nan" in pandas before version 3 and stays missing
    from version 3 on; the source does not fix the version, so
    [keeps_missing] says which of the two holds. *)
Definition astype_str (keeps_missing : bool) (x : cell) : cell :=
  match x with
  | Str s => Str s
  | NaN => if keeps_missing then NaN else Str (lit "nan")
  end.

Section Script.

Context {LLM : Type} (chat : LLM → pystr → pystr * LLM).

(** How [astype(str)] treats a missing cell in the pandas at hand. *)
Context (keeps_missing : bool).

(** [series.apply(f)]: [f] on each cell in row order. *)
Definition series_apply {A} (f : cell → M (LLM := LLM) A) (xs : list cell)
  : M (LLM := LLM) (list A) :=
  for_each xs [] (λ acc x, y <- f x ;; ret (acc ++ [y])).

(** Source lines 138 to 140: the table with the column REMARK set. *)
Definition expand_transactions (transactions_df : DataFrame)
    (abbreviation_map : gmap pystr (list pystr)) : M (LLM := LLM) DataFrame :=
  remark_clean <- lift (column transactions_df (lit "REMARK_CLEAN")) ;;
  remark <- series_apply (λ x, expand_abbreviations chat (str x) abbreviation_map)
              remark_clean ;;
  lift (set_column transactions_df (lit "REMARK") (map Str remark)).

(** Source line 155: the REMARK_CLEAN cells through [astype(str)], joined
    by newlines; the join raises TypeError on a cell that is still
    missing. *)
Definition transactions_text (transactions_df : DataFrame) : res pystr :=
  match column transactions_df (lit "REMARK_CLEAN") with
  | Ok remark_clean =>
    match texts (map (astype_str keeps_missing) remark_clean) with
    | Ok lines => Ok (join [10] lines)
    | Raise e => Raise e
    end
  | Raise e => Raise e
  end.

(** Source lines 156 to 165. *)
Definition classification_prompt (category_list : list cell)
    (transactions_text : pystr) : res pystr :=
  match texts category_list with
  | Ok names =>
    Ok (classify_prompt_1 ++ join (lit ", ") names
        ++ classify_prompt_2 ++ transactions_text ++ classify_prompt_3)
  | Raise e => Raise e
  end.

(** Source lines 135 to 165: the table after expansion and the prompt
    sent to the classifier. *)
Definition prepare (categories_df transactions_df : DataFrame)
    (abbreviation_map : gmap pystr (list pystr))
  : M (LLM := LLM) (DataFrame * pystr) :=
  category_list <- lift (first_column categories_df) ;;
  transactions_df <- expand_transactions transactions_df abbreviation_map ;;
  text <- lift (transactions_text transactions_df) ;;
  prompt <- lift (classification_prompt category_list text) ;;
  ret (transactions_df, prompt).

End Script.

(** ** Reconciliation (source lines 176 to 196) *)

(** Source lines 185 to 188. *)
Definition uncategorized_rows (transactions_df : DataFrame)
    (categorized_transactions : list record) : DataFrame :=
  set_column_scalar
    (iloc_from (length categorized_transactions) transactions_df)
    (lit "category") (Str fallback_category).

Definition categorized_df (transactions_df : DataFrame)
    (categorized_transactions : list record) : DataFrame :=
  let missing_count :=
    (Z.of_nat (len transactions_df) - Z.of_nat (length categorized_transactions))%Z in
  if (0 <? missing_count)%Z then
    pd_concat [DataFrame_of_records categorized_transactions;
            uncategorized_rows transactions_df categorized_transactions]
  else DataFrame_of_records categorized_transactions.

(** ** Definitions used to state the properties *)

(** The single space of [" ".join]. *)
Definition sp : pystr := lit " ".

(** A token: a non-empty string without whitespace. *)
Definition token (w : pystr) : Prop := w ≠ [] ∧ Forall (λ c, isspace c = false) w.

(** A language model that answers from a fixed script, one reply per call,
    whatever the prompt; the empty reply once the script is used up. *)
Definition scripted (st : list pystr) (prompt : pystr) : pystr * list pystr :=
  match st with
  | reply :: st' => (reply, st')
  | [] => ([], [])
  end.

(** The candidates the dictionary table lists for [abbr]: row by row, the
    row's full word once for each time [abbr] occurs in the row's
    abbreviation cell. *)
Definition candidates_of (abbr : pystr) (df : list dict_row) : list pystr :=
  flat_map
    (λ row, flat_map (λ a, if bool_decide (a = abbr) then [Full_words row] else [])
                     (split_sep (lit ", ") (Abbreviation row)))
    df.

(** A small dictionary: PMT is ambiguous, TXN is not, and the second row
    lists two abbreviations. *)
Definition example_dict : list dict_row :=
  [ {| Full_words := lit "Transaction"; Abbreviation := lit "TXN" |};
    {| Full_words := lit "Payment"; Abbreviation := lit "PMT, PM" |};
    {| Full_words := lit "Permit"; Abbreviation := lit "PMT" |} ].

(** No key of the map has an empty candidate list. *)
Definition nonempty_lists (m : gmap pystr (list pystr)) : Prop :=
  ∀ k ws, m !! k = Some ws → ws ≠ [].

(** The expansion as the specification words it: each token is mapped on
    its own, and the results are joined by single spaces. [map_m] runs a
    computation on each element in order and collects the results. *)
Fixpoint map_m {LLM A B} (f : A → M (LLM := LLM) B) (xs : list A)
  : M (LLM := LLM) (list B) :=
  match xs with
  | [] => ret []
  | x :: xs' => y <- f x ;; ys <- map_m f xs' ;; ret (y :: ys)
  end.

Section ExpansionSpec.

Context {LLM : Type} (chat : LLM → pystr → pystr * LLM).

(** One token: kept when it is not a key, replaced by the candidate when
    there is exactly one, resolved by the model otherwise, with the token,
    the whole text and the candidate list. *)
Definition expand_token (text : pystr) (abbreviation_map : gmap pystr (list pystr))
    (word : pystr) : M (LLM := LLM) pystr :=
  match abbreviation_map !! word with
  | None => ret word
  | Some [w] => ret w
  | Some candidates => resolve_abbreviation_with_llm chat word text candidates
  end.

Definition expand_spec (text : pystr) (abbreviation_map : gmap pystr (list pystr))
  : M (LLM := LLM) pystr :=
  ws <- map_m (expand_token text abbreviation_map) (split text) ;;
  ret (join sp ws).

End ExpansionSpec.

(** No token of [text] is a key of the map. *)
Definition unmatched (abbreviation_map : gmap pystr (list pystr)) (text : pystr)
  : Prop :=
  Forall (λ w, abbreviation_map !! w = None) (split text).

(** A text that is not empty and equals its tokens joined by single
    spaces: no whitespace at either end, one space between tokens. *)
Definition tidy (w : pystr) : Prop := w ≠ [] ∧ join sp (split w) = w.

#[global] Instance tidy_dec w : Decision (tidy w).
Proof. unfold tidy. apply _. Defined.

(** Every candidate of the map is tidy. *)
Definition tidy_candidates (abbreviation_map : gmap pystr (list pystr)) : Prop :=
  map_Forall (λ _ ws, Forall tidy ws) abbreviation_map.

(** A dictionary whose full word has two spaces in a row. *)
Definition spaced_dict : list dict_row :=
  [ {| Full_words := lit "bank  transfer"; Abbreviation := lit "CK" |} ].

Definition example_map : gmap pystr (list pystr) :=
  load_abbreviation_dict example_dict.

Definition spaced_map : gmap pystr (list pystr) :=
  load_abbreviation_dict spaced_dict.

(** A transactions table with two remarks and a categories table. *)
Definition example_transactions : DataFrame :=
  {| columns := [lit "ID"; lit "REMARK_CLEAN"];
     data := [ [Str (lit "1"); Str (lit "TXN for PMT")];
               [Str (lit "2"); Str (lit "paid in cash")] ] |}.

Definition example_categories : DataFrame :=
  {| columns := [lit "Category"];
     data := [ [Str (lit "Bills")]; [Str (lit "Other")] ] |}.

(** Five transactions after expansion, and three classified records. *)
Definition five_transactions : DataFrame :=
  {| columns := [lit "REMARK_CLEAN"; lit "REMARK"];
     data := [ [Str (lit "TXN rent"); Str (lit "Transaction rent")];
               [Str (lit "coffee"); Str (lit "coffee")];
               [Str (lit "TXN fuel"); Str (lit "Transaction fuel")];
               [Str (lit "books"); Str (lit "books")];
               [Str (lit "TXN gift"); Str (lit "Transaction gift")] ] |}.

Definition three_records : list record :=
  [ [(lit "transaction", Str (lit "TXN rent")); (lit "category", Str (lit "Housing"))];
    [(lit "transaction", Str (lit "coffee")); (lit "category", Str (lit "Food"))];
    [(lit "transaction", Str (lit "TXN fuel")); (lit "category", Str (lit "Travel"))] ].

(** ** Definitions used to state further properties *)

(** A model that also keeps the list of the prompts it was sent, oldest
    first. *)
Definition logging {LLM} (chat : LLM → pystr → pystr * LLM)
    (st : LLM * list pystr) (prompt : pystr) : pystr * (LLM * list pystr) :=
  let '(reply, st') := chat st.1 prompt in (reply, (st', st.2 ++ [prompt])).

(** A model that always replies with the empty text. *)
Definition silent (st : unit) (prompt : pystr) : pystr * unit := ([], tt).

(** The prompts the expansion of [text] sends for the tokens [words]: one
    for each token that is a key without exactly one candidate. *)
Definition prompts_of (text : pystr) (abbreviation_map : gmap pystr (list pystr))
    (words : list pystr) : list pystr :=
  flat_map
    (λ word, match abbreviation_map !! word with
             | None => []
             | Some [_] => []
             | Some candidates => [resolve_prompt word text candidates]
             end)
    words.

(** A token needs no model: it is no key, or a key with one candidate. *)
Definition unambiguous (abbreviation_map : gmap pystr (list pystr)) (word : pystr)
  : Prop :=
  match abbreviation_map !! word with
  | None => True
  | Some [_] => True
  | Some _ => False
  end.

(** The token itself, or its candidate when it has exactly one. *)
Definition substitute (abbreviation_map : gmap pystr (list pystr)) (word : pystr)
  : pystr :=
  match abbreviation_map !! word with
  | Some [w] => w
  | _ => word
  end.

(** The token itself, or the first of its candidates. *)
Definition first_candidate (abbreviation_map : gmap pystr (list pystr))
    (word : pystr) : pystr :=
  match abbreviation_map !! word with
  | Some (w :: _) => w
  | _ => word
  end.

#[global] Instance token_dec w : Decision (token w).
Proof. unfold token. apply _. Defined.

(** A categories table with an empty cell. *)
Definition categories_with_gap : DataFrame :=
  {| columns := [lit "Category"];
     data := [ [Str (lit "Bills")]; [NaN] ] |}.

(** A transactions table with an empty remark. *)
Definition transactions_with_gap : DataFrame :=
  {| columns := [lit "ID"; lit "REMARK_CLEAN"];
     data := [ [Str (lit "1"); Str (lit "TXN  for PMT")];
               [Str (lit "2"); NaN] ] |}.



(** * Properties *)

(** ** Whitespace splitting and joining *)

Example split_example :
  split (lit "  TXN for	 PMT ") = [lit "TXN"; lit "for"; lit "PMT"].
Proof. reflexivity. Qed.

Example strip_example : strip (lit "
 Payment  ") = lit "Payment".
Proof. reflexivity. Qed.

Example split_sep_example :
  split_sep (lit ", ") (lit "TT, T.T,, x, ") = [lit "TT"; lit "T.T,"; lit "x"; []].
Proof. reflexivity. Qed.

Example lit_example : lit "Khác" = [75; 104; 225; 99].
Proof. reflexivity. Qed.

Example nbsp_is_space : split [97; 160; 98; 12288; 99] = [[97]; [98]; [99]].
Proof. reflexivity. Qed.

Lemma split_cons c s :
  split (c :: s) =
  if isspace c then split s
  else match s with
       | [] => [[c]]
       | c' :: _ =>
         if isspace c' then [c] :: split s
         else match split s with
              | w :: ws => (c :: w) :: ws
              | [] => [[c]]
              end
       end.
Proof. reflexivity. Qed.

Lemma split_head_nonspace c s :
  isspace c = false → ∃ w ws, split (c :: s) = (c :: w) :: ws.
Proof.
  revert c. induction s as [|c' s IH]; intros c Hc; rewrite split_cons, Hc.
  - by exists [], [].
  - destruct (isspace c') eqn:Hc'.
    + by exists [], (split (c' :: s)).
    + destruct (IH c' Hc') as (w & ws & ->). by exists (c' :: w), ws.
Qed.

Lemma split_app_space a c b :
  isspace c = true → split (a ++ c :: b) = split a ++ split b.
Proof.
  intros Hc.
  assert (Hcb : split (c :: b) = split b) by (by rewrite split_cons, Hc).
  induction a as [|x a IH]; [done|].
  rewrite <- app_comm_cons, (split_cons x (a ++ c :: b)), (split_cons x a).
  destruct (isspace x); [done|].
  destruct a as [|y a].
  - cbv beta iota delta [app]. by rewrite Hc, Hcb.
  - rewrite <- app_comm_cons. destruct (isspace y) eqn:Hy.
    + by rewrite app_comm_cons, IH.
    + rewrite app_comm_cons, IH.
      by destruct (split_head_nonspace y a Hy) as (w & ws & ->).
Qed.

Lemma split_token w : token w → split w = [w].
Proof.
  intros [Hne Hw]. induction Hw as [|c w Hc Hw IH]; [done|].
  rewrite split_cons, Hc. destruct w as [|c' w]; [done|].
  inversion Hw as [|? ? Hc' _]; subst. rewrite Hc'. by rewrite IH.
Qed.

Lemma split_tokens s : Forall token (split s).
Proof.
  induction s as [|c s IH]; [constructor|].
  rewrite split_cons. destruct (isspace c) eqn:Hc; [done|].
  destruct s as [|c' s].
  - repeat constructor; done.
  - destruct (isspace c') eqn:Hc'.
    + constructor; [|done]. repeat constructor; done.
    + destruct (split (c' :: s)) as [|w ws]; [repeat constructor; done|].
      inversion IH as [|? ? [_ Hw] Hws]; subst.
      constructor; [|done]. split; [done|]. by constructor.
Qed.

Lemma join_cons sep w ws :
  ws ≠ [] → join sep (w :: ws) = w ++ sep ++ join sep ws.
Proof. by destruct ws. Qed.

Lemma join_app sep ws1 ws2 :
  ws1 ≠ [] → ws2 ≠ [] →
  join sep (ws1 ++ ws2) = join sep ws1 ++ sep ++ join sep ws2.
Proof.
  intros H1 H2. induction ws1 as [|w ws1 IH]; [done|].
  destruct ws1 as [|w' ws1].
  - simpl app. by rewrite join_cons.
  - rewrite <- app_comm_cons, join_cons by done.
    rewrite IH by done. rewrite (join_cons _ w (w' :: ws1)) by done.
    by rewrite <- !app_assoc.
Qed.

Lemma split_join ws : split (join sp ws) = concat (map split ws).
Proof.
  induction ws as [|w ws IH]; [done|].
  destruct ws as [|w' ws].
  - simpl. by rewrite app_nil_r.
  - rewrite join_cons by done. change sp with [32].
    change (w ++ [32] ++ join [32] (w' :: ws))
      with (w ++ 32 :: join sp (w' :: ws)).
    rewrite split_app_space by done. by rewrite IH.
Qed.

Lemma split_join_tokens ws : Forall token ws → split (join sp ws) = ws.
Proof.
  intros Hws. rewrite split_join.
  induction Hws as [|w ws Hw Hws IH]; [done|].
  simpl. by rewrite split_token, IH.
Qed.

(** ** Resolver *)

Section ResolverFacts.

Context {LLM : Type} (chat : LLM → pystr → pystr * LLM).

(** The resolver in one equation: the trimmed reply when it is a
    candidate, the first candidate otherwise. *)
Lemma resolve_unfold abbreviation context possible_words st :
  resolve_abbreviation_with_llm chat abbreviation context possible_words st =
  let r := chat st (resolve_prompt abbreviation context possible_words) in
  (if bool_decide (strip r.1 ∈ possible_words) then Ok (strip r.1)
   else match possible_words !! 0%nat with
        | Some w => Ok w
        | None => Raise IndexError
        end, r.2).
Proof.
  unfold resolve_abbreviation_with_llm, bind, ask, getitem, ret, raise.
  destruct (chat st _) as [content st']. simpl.
  case_bool_decide; [done|]. by destruct (possible_words !! 0%nat).
Qed.

Lemma resolve_member abbreviation context possible_words st w st' :
  resolve_abbreviation_with_llm chat abbreviation context possible_words st
    = (Ok w, st') →
  w ∈ possible_words.
Proof.
  rewrite resolve_unfold. cbv zeta. case_bool_decide as Hin.
  - by intros [= <- _].
  - destruct possible_words as [|w0 ws]; [done|].
    intros [= <- _]. by left.
Qed.

Lemma resolve_nonempty abbreviation context possible_words st :
  possible_words ≠ [] →
  ∃ w st',
    resolve_abbreviation_with_llm chat abbreviation context possible_words st
      = (Ok w, st').
Proof.
  intros Hne. rewrite resolve_unfold. cbv zeta. case_bool_decide.
  - eauto.
  - destruct possible_words as [|w0 ws]; [done|]. simpl. eauto.
Qed.

(** C1: with a non-empty candidate list the resolver returns a value, the
    value is one of the candidates, it is the first candidate whenever the
    trimmed reply of the model is not a candidate, and it is the trimmed
    reply otherwise; this for every model, state and reply. *)
Theorem resolve_in_candidates abbreviation context possible_words st :
  possible_words ≠ [] →
  ∃ w,
    (resolve_abbreviation_with_llm chat abbreviation context possible_words st).1
      = Ok w
    ∧ w ∈ possible_words
    ∧ (strip (chat st (resolve_prompt abbreviation context possible_words)).1
         ∉ possible_words →
       possible_words !! 0%nat = Some w)
    ∧ (strip (chat st (resolve_prompt abbreviation context possible_words)).1
         ∈ possible_words →
       w = strip (chat st (resolve_prompt abbreviation context possible_words)).1).
Proof.
  intros Hne. rewrite resolve_unfold. cbv zeta.
  destruct possible_words as [|w0 ws]; [done|].
  case_bool_decide as Hin; simpl.
  - eexists. split; [done|]. split; [done|]. split; [done|]. done.
  - exists w0. split; [done|]. split; [by left|]. split; [done|]. done.
Qed.

(** C10: the resolver returns for every reply when the candidate list is
    non-empty, and raises IndexError for every reply when it is empty. *)
Theorem resolve_total_iff_nonempty abbreviation context possible_words st :
  (possible_words ≠ [] →
   ∃ w,
     (resolve_abbreviation_with_llm chat abbreviation context possible_words st).1
       = Ok w)
  ∧ (resolve_abbreviation_with_llm chat abbreviation context [] st).1
      = Raise IndexError.
Proof.
  split.
  - intros Hne.
    destruct (resolve_nonempty abbreviation context possible_words st Hne)
      as (w & st' & ->).
    by exists w.
  - rewrite resolve_unfold. cbv zeta. case_bool_decide as Hin; [|done].
    by apply elem_of_nil in Hin.
Qed.

End ResolverFacts.

Lemma resolve_in_candidates_witness :
  [lit "Payment"; lit "Permit"] ≠ []
  ∧ ∃ w,
      (resolve_abbreviation_with_llm scripted (lit "PMT") (lit "TXN for PMT")
         [lit "Payment"; lit "Permit"] [lit "no idea"]).1 = Ok w
      ∧ w ∈ [lit "Payment"; lit "Permit"]
      ∧ (strip (scripted [lit "no idea"]
                  (resolve_prompt (lit "PMT") (lit "TXN for PMT")
                     [lit "Payment"; lit "Permit"])).1
           ∉ [lit "Payment"; lit "Permit"] →
         [lit "Payment"; lit "Permit"] !! 0%nat = Some w)
      ∧ (strip (scripted [lit "no idea"]
                  (resolve_prompt (lit "PMT") (lit "TXN for PMT")
                     [lit "Payment"; lit "Permit"])).1
           ∈ [lit "Payment"; lit "Permit"] →
         w = strip (scripted [lit "no idea"]
                      (resolve_prompt (lit "PMT") (lit "TXN for PMT")
                         [lit "Payment"; lit "Permit"])).1).
Proof.
  split; [discriminate|].
  apply (resolve_in_candidates scripted (lit "PMT") (lit "TXN for PMT")
           [lit "Payment"; lit "Permit"] [lit "no idea"]).
  discriminate.
Defined.

Lemma resolve_total_iff_nonempty_witness :
  [lit "Payment"; lit "Permit"] ≠ []
  ∧ ∃ w,
      (resolve_abbreviation_with_llm scripted (lit "PMT") (lit "TXN for PMT")
         [lit "Payment"; lit "Permit"] [lit "  Permit "]).1 = Ok w.
Proof.
  split; [discriminate|].
  apply (resolve_total_iff_nonempty scripted (lit "PMT") (lit "TXN for PMT")
           [lit "Payment"; lit "Permit"] [lit "  Permit "]).
  discriminate.
Defined.

(** ** Dictionary loader *)

Lemma add_candidate_lookup full_word m abbr k :
  default [] (add_candidate full_word m abbr !! k) =
  default [] (m !! k) ++ (if bool_decide (abbr = k) then [full_word] else []).
Proof.
  unfold add_candidate. case_bool_decide as Hk.
  - subst k. destruct (m !! abbr) as [ws|] eqn:Hm; by rewrite lookup_insert_eq.
  - rewrite app_nil_r.
    destruct (m !! abbr) as [ws|] eqn:Hm; by rewrite lookup_insert_ne.
Qed.

Lemma add_candidate_nonempty full_word m abbr :
  nonempty_lists m → nonempty_lists (add_candidate full_word m abbr).
Proof.
  intros Hm k ws. unfold add_candidate.
  destruct (m !! abbr) as [ws0|] eqn:Habbr;
    (destruct (decide (abbr = k)) as [->|Hk];
     [rewrite lookup_insert_eq; intros [= <-]
     |rewrite lookup_insert_ne by done; apply Hm]).
  - by destruct ws0.
  - done.
Qed.

Lemma add_row_lookup m row k :
  default [] (add_row m row !! k) =
  default [] (m !! k) ++ candidates_of k [row].
Proof.
  unfold add_row, candidates_of. simpl flat_map. rewrite app_nil_r.
  generalize (split_sep (lit ", ") (Abbreviation row)) as abbrs.
  intros abbrs. revert m.
  induction abbrs as [|a abbrs IH]; intros m; simpl.
  - by rewrite app_nil_r.
  - rewrite IH, add_candidate_lookup. by rewrite <- app_assoc.
Qed.

Lemma add_row_nonempty m row : nonempty_lists m → nonempty_lists (add_row m row).
Proof.
  unfold add_row.
  generalize (split_sep (lit ", ") (Abbreviation row)) as abbrs.
  intros abbrs. revert m.
  induction abbrs as [|a abbrs IH]; intros m Hm; simpl; [done|].
  by apply IH, add_candidate_nonempty.
Qed.

Lemma candidates_of_app k df1 df2 :
  candidates_of k (df1 ++ df2) = candidates_of k df1 ++ candidates_of k df2.
Proof. unfold candidates_of. by rewrite flat_map_app. Qed.

Lemma fold_add_row_lookup df m k :
  default [] (fold_left add_row df m !! k) =
  default [] (m !! k) ++ candidates_of k df.
Proof.
  revert m. induction df as [|row df IH]; intros m; cbn [fold_left].
  - by rewrite app_nil_r.
  - rewrite IH, add_row_lookup.
    change (row :: df) with ([row] ++ df).
    by rewrite candidates_of_app, <- app_assoc.
Qed.

Lemma fold_add_row_nonempty df m :
  nonempty_lists m → nonempty_lists (fold_left add_row df m).
Proof.
  revert m. induction df as [|row df IH]; intros m Hm; simpl; [done|].
  by apply IH, add_row_nonempty.
Qed.

Lemma load_nonempty df : nonempty_lists (load_abbreviation_dict df).
Proof. apply fold_add_row_nonempty. intros k ws. by rewrite lookup_empty. Qed.

(** C6: the loader handles the rows in order, each row by appending its
    full word under every abbreviation of its cell split on ", " (a new
    list when the key is absent); in the resulting map every key has a
    non-empty list, which is exactly the full words of the rows that list
    the key, in row order, once per occurrence. *)
Theorem load_abbreviation_dict_spec df :
  (∀ row,
     load_abbreviation_dict (df ++ [row]) =
     fold_left (add_candidate (Full_words row))
               (split_sep (lit ", ") (Abbreviation row))
               (load_abbreviation_dict df))
  ∧ (∀ full_word m abbr,
       m !! abbr = None → add_candidate full_word m abbr !! abbr = Some [full_word])
  ∧ (∀ full_word m abbr ws,
       m !! abbr = Some ws →
       add_candidate full_word m abbr !! abbr = Some (ws ++ [full_word]))
  ∧ (∀ abbr ws,
       load_abbreviation_dict df !! abbr = Some ws →
       ws ≠ [] ∧ ws = candidates_of abbr df)
  ∧ (∀ abbr,
       load_abbreviation_dict df !! abbr = None → candidates_of abbr df = []).
Proof.
  split; [|split; [|split; [|split]]].
  - intros row. unfold load_abbreviation_dict. by rewrite fold_left_app.
  - intros full_word m abbr Hm. unfold add_candidate.
    by rewrite Hm, lookup_insert_eq.
  - intros full_word m abbr ws Hm. unfold add_candidate.
    by rewrite Hm, lookup_insert_eq.
  - intros abbr ws Hws. split; [by eapply load_nonempty|].
    pose proof (fold_add_row_lookup df ∅ abbr) as H.
    unfold load_abbreviation_dict in Hws. rewrite Hws, lookup_empty in H. done.
  - intros abbr Hnone.
    pose proof (fold_add_row_lookup df ∅ abbr) as H.
    unfold load_abbreviation_dict in Hnone. rewrite Hnone, lookup_empty in H. done.
Qed.

(** Duplicates are kept: an abbreviation listed twice in a row, or by two
    rows with one full word, gets the full word each time. *)
Example load_keeps_duplicates :
  load_abbreviation_dict
    [ {| Full_words := lit "Payment"; Abbreviation := lit "PMT, PMT" |};
      {| Full_words := lit "Payment"; Abbreviation := lit "PMT" |} ]
  !! lit "PMT"
  = Some [lit "Payment"; lit "Payment"; lit "Payment"].
Proof. vm_compute. reflexivity. Qed.

Lemma load_abbreviation_dict_spec_witness :
  load_abbreviation_dict example_dict !! lit "PMT"
    = Some [lit "Payment"; lit "Permit"]
  ∧ [lit "Payment"; lit "Permit"] ≠ []
  ∧ [lit "Payment"; lit "Permit"] = candidates_of (lit "PMT") example_dict.
Proof.
  assert (H : load_abbreviation_dict example_dict !! lit "PMT"
              = Some [lit "Payment"; lit "Permit"]) by (vm_compute; reflexivity).
  split; [exact H|].
  exact (proj1 (proj2 (proj2 (proj2 (load_abbreviation_dict_spec example_dict))))
           (lit "PMT") [lit "Payment"; lit "Permit"] H).
Defined.

(** ** Text expander *)

Section ExpanderFacts.

Context {LLM : Type} (chat : LLM → pystr → pystr * LLM).

Lemma expand_word_token text m acc word st :
  expand_word chat text m acc word st =
  match expand_token chat text m word st with
  | (Ok w, st') => (Ok (acc ++ [w]), st')
  | (Raise e, st') => (Raise e, st')
  end.
Proof.
  unfold expand_word, expand_token.
  destruct (m !! word) as [[|w [|w' ws]]|]; try done.
Qed.

Lemma for_each_expand_word text m words acc st :
  for_each words acc (expand_word chat text m) st =
  match map_m (expand_token chat text m) words st with
  | (Ok ws, st') => (Ok (acc ++ ws), st')
  | (Raise e, st') => (Raise e, st')
  end.
Proof.
  revert acc st. induction words as [|word words IH]; intros acc st.
  - simpl. unfold ret. by rewrite app_nil_r.
  - cbn [for_each map_m]. unfold bind.
    rewrite expand_word_token.
    destruct (expand_token chat text m word st) as [[w|e] st1]; [|done].
    rewrite IH.
    destruct (map_m (expand_token chat text m) words st1) as [[ws|e] st2];
      [|done].
    unfold ret. by rewrite <- app_assoc.
Qed.

(** The source loop computes what the token-by-token reading says. *)
Lemma expand_abbreviations_eq_spec text m st :
  expand_abbreviations chat text m st = expand_spec chat text m st.
Proof.
  unfold expand_abbreviations, expand_spec, bind.
  rewrite for_each_expand_word.
  by destruct (map_m (expand_token chat text m) (split text) st) as [[ws|e] st'].
Qed.

Lemma map_m_unmatched text m words st :
  Forall (λ w, m !! w = None) words →
  map_m (expand_token chat text m) words st = (Ok words, st).
Proof.
  induction 1 as [|word words Hword _ IH]; [done|].
  cbn [map_m]. unfold bind, expand_token at 1. rewrite Hword.
  unfold ret at 1. by rewrite IH.
Qed.

Lemma expand_unmatched text m st :
  unmatched m text →
  expand_abbreviations chat text m st = (Ok (join sp (split text)), st).
Proof.
  intros Hun. rewrite expand_abbreviations_eq_spec.
  unfold expand_spec, bind. by rewrite map_m_unmatched.
Qed.

(** C3: the expansion is the token-by-token map joined by single spaces,
    where a token that is not a key is kept, a token with exactly one
    candidate becomes that candidate without a model call (the model state
    is unchanged), and a token with several candidates becomes the result
    of the resolver called with the token, the whole text and the
    candidates. *)
Theorem expand_abbreviations_tokenwise text m st :
  expand_abbreviations chat text m st =
    (ws <- map_m (expand_token chat text m) (split text) ;; ret (join (lit " ") ws)) st
  ∧ (∀ word st1, m !! word = None →
       expand_token chat text m word st1 = (Ok word, st1))
  ∧ (∀ word w st1, m !! word = Some [w] →
       expand_token chat text m word st1 = (Ok w, st1))
  ∧ (∀ word ws st1, m !! word = Some ws → (2 ≤ length ws)%nat →
       expand_token chat text m word st1 =
       resolve_abbreviation_with_llm chat word text ws st1).
Proof.
  split; [apply expand_abbreviations_eq_spec|].
  unfold expand_token.
  split; [|split].
  - by intros word st1 ->.
  - by intros word w st1 ->.
  - intros word ws st1 -> Hlen.
    destruct ws as [|w [|w' ws]]; simpl in Hlen; [lia|lia|done].
Qed.

(** C4: when no token of the text is a key, the expansion calls no model
    and returns the tokens joined by single spaces; that is the text
    itself when the text consists of tokens separated by single spaces. *)
Theorem expand_unmatched_normalises text m st :
  unmatched m text →
  expand_abbreviations chat text m st = (Ok (join sp (split text)), st)
  ∧ (∀ ws, Forall token ws → text = join sp ws →
       expand_abbreviations chat text m st = (Ok text, st)).
Proof.
  intros Hun. split; [by apply expand_unmatched|].
  intros ws Hws ->. rewrite expand_unmatched by done.
  by rewrite split_join_tokens.
Qed.

End ExpanderFacts.

Example expand_end_to_end :
  expand_abbreviations scripted (lit "TXN for PMT") example_map [lit "Payment"]
  = (Ok (lit "Transaction for Payment"), []).
Proof. vm_compute. reflexivity. Qed.

Example expand_end_to_end_fallback :
  expand_abbreviations scripted (lit "TXN for PMT") example_map [lit "Pavement"]
  = (Ok (lit "Transaction for Payment"), []).
Proof. vm_compute. reflexivity. Qed.

Lemma expand_abbreviations_tokenwise_witness :
  example_map !! lit "PMT" = Some [lit "Payment"; lit "Permit"]
  ∧ (2 ≤ length [lit "Payment"; lit "Permit"])%nat
  ∧ expand_token scripted (lit "TXN for PMT") example_map (lit "PMT") [lit "Permit"]
    = resolve_abbreviation_with_llm scripted (lit "PMT") (lit "TXN for PMT")
        [lit "Payment"; lit "Permit"] [lit "Permit"].
Proof.
  assert (H : example_map !! lit "PMT" = Some [lit "Payment"; lit "Permit"])
    by (vm_compute; reflexivity).
  assert (H2 : (2 ≤ length [lit "Payment"; lit "Permit"])%nat) by (simpl; lia).
  split; [exact H|]. split; [exact H2|].
  exact (proj2 (proj2 (proj2
           (expand_abbreviations_tokenwise scripted (lit "TXN for PMT")
              example_map [lit "Permit"])))
           (lit "PMT") [lit "Payment"; lit "Permit"] [lit "Permit"] H H2).
Defined.

Lemma unmatched_paid_in_cash : unmatched example_map (lit "paid in cash").
Proof. repeat constructor; vm_compute; reflexivity. Defined.

Lemma expand_unmatched_normalises_witness :
  unmatched example_map (lit "paid in cash")
  ∧ expand_abbreviations scripted (lit "paid in cash") example_map []
    = (Ok (join sp (split (lit "paid in cash"))), []).
Proof.
  split; [exact unmatched_paid_in_cash|].
  exact (proj1 (expand_unmatched_normalises scripted (lit "paid in cash")
                  example_map [] unmatched_paid_in_cash)).
Defined.

(** The expansion is not the identity on every text without keys: on a
    text with two spaces in a row the expansion has one. *)
Lemma expand_identity_counterexample :
  unmatched example_map (lit "paid  cash")
  ∧ (expand_abbreviations scripted (lit "paid  cash") example_map []).1
    = Ok (lit "paid cash")
  ∧ (expand_abbreviations scripted (lit "paid  cash") example_map []).1
    ≠ Ok (lit "paid  cash").
Proof.
  split; [repeat constructor; vm_compute; reflexivity|].
  split; [vm_compute; reflexivity|].
  vm_compute. discriminate.
Qed.

Section IdempotenceFacts.

Context {LLM : Type} (chat : LLM → pystr → pystr * LLM).

Lemma token_tidy w : token w → tidy w.
Proof.
  intros Hw. split; [apply Hw|]. by rewrite split_token.
Qed.

Lemma tidy_split_nonempty w : tidy w → split w ≠ [].
Proof. intros [Hne Hw] Hsplit. rewrite Hsplit in Hw. by apply Hne. Qed.

Lemma concat_split_tidy_nonempty w ws :
  Forall tidy (w :: ws) → concat (map split (w :: ws)) ≠ [].
Proof.
  intros Hws. inversion Hws as [|? ? Hw _]; subst. simpl.
  pose proof (tidy_split_nonempty w Hw). by destruct (split w).
Qed.

(** Splitting and joining again leaves a join of tidy texts as it is. *)
Lemma join_split_join ws :
  Forall tidy ws → join sp (split (join sp ws)) = join sp ws.
Proof.
  intros Hws. rewrite split_join.
  induction Hws as [|w ws Hw Hws IH]; [done|].
  destruct ws as [|w' ws].
  - simpl. rewrite app_nil_r. apply Hw.
  - cbn [map concat].
    rewrite join_app;
      [|by apply tidy_split_nonempty|by apply concat_split_tidy_nonempty].
    cbn [map concat] in IH. rewrite IH.
    rewrite (proj2 Hw). by rewrite (join_cons _ w (w' :: ws)).
Qed.

Lemma expand_token_tidy text m word st w st' :
  tidy_candidates m → token word →
  expand_token chat text m word st = (Ok w, st') → tidy w.
Proof.
  intros Hm Hword. unfold expand_token.
  destruct (m !! word) as [ws|] eqn:Hk.
  - pose proof (Hm word ws Hk) as Hws. simpl in Hws.
    intros Hres.
    assert (w ∈ ws) as Hin.
    { destruct ws as [|w0 [|w1 ws]].
      - by eapply resolve_member.
      - injection Hres as <- _. by left.
      - by eapply resolve_member. }
    rewrite Forall_forall in Hws. by apply Hws.
  - intros [= <- _]. by apply token_tidy.
Qed.

Lemma map_m_tidy text m words st ws st' :
  tidy_candidates m → Forall token words →
  map_m (expand_token chat text m) words st = (Ok ws, st') → Forall tidy ws.
Proof.
  intros Hm Hwords. revert st ws st'.
  induction Hwords as [|word words Hword _ IH]; intros st ws st'.
  - by intros [= <- _].
  - cbn [map_m]. unfold bind.
    destruct (expand_token chat text m word st) as [[w|e] st1] eqn:Hw; [|done].
    destruct (map_m (expand_token chat text m) words st1) as [[ws1|e] st2] eqn:Hws;
      [|done].
    intros [= <- _]. constructor.
    + by eapply expand_token_tidy.
    + by eapply IH.
Qed.

Lemma expand_token_total text m word st :
  nonempty_lists m →
  ∃ w st', expand_token chat text m word st = (Ok w, st').
Proof.
  intros Hm. unfold expand_token.
  destruct (m !! word) as [ws|] eqn:Hk; [|by eexists _, _].
  pose proof (Hm word ws Hk) as Hne.
  destruct ws as [|w0 [|w1 ws]]; [done|by eexists _, _|].
  by apply resolve_nonempty.
Qed.

Lemma map_m_total text m words st :
  nonempty_lists m →
  ∃ ws st', map_m (expand_token chat text m) words st = (Ok ws, st').
Proof.
  intros Hm. revert st. induction words as [|word words IH]; intros st.
  - by eexists _, _.
  - cbn [map_m]. unfold bind.
    destruct (expand_token_total text m word st Hm) as (w & st1 & ->).
    destruct (IH st1) as (ws & st2 & ->). by eexists _, _.
Qed.

Lemma expand_total text m st :
  nonempty_lists m →
  ∃ ws st',
    map_m (expand_token chat text m) (split text) st = (Ok ws, st')
    ∧ expand_abbreviations chat text m st = (Ok (join sp ws), st').
Proof.
  intros Hm. destruct (map_m_total text m (split text) st Hm) as (ws & st' & Hws).
  exists ws, st'. split; [done|].
  rewrite expand_abbreviations_eq_spec. unfold expand_spec, bind. by rewrite Hws.
Qed.

Lemma expand_result text m st out st' :
  expand_abbreviations chat text m st = (Ok out, st') →
  ∃ ws, map_m (expand_token chat text m) (split text) st = (Ok ws, st')
        ∧ out = join sp ws.
Proof.
  rewrite expand_abbreviations_eq_spec. unfold expand_spec, bind.
  destruct (map_m (expand_token chat text m) (split text) st) as [[ws|e] st1];
    [|done].
  intros [= <- <-]. by exists ws.
Qed.

(** C8: when every candidate of the map is tidy (not empty, no whitespace
    at its ends, single spaces inside) and no token of the expansion of a
    text is a key, expanding that expansion again returns it unchanged and
    calls no model; and the expansion returns whenever no key has an empty
    candidate list. *)
Theorem expand_idempotent text m st :
  tidy_candidates m →
  (∀ out st',
     expand_abbreviations chat text m st = (Ok out, st') →
     unmatched m out →
     ∀ st2, expand_abbreviations chat out m st2 = (Ok out, st2))
  ∧ (nonempty_lists m →
     ∃ out st', expand_abbreviations chat text m st = (Ok out, st')).
Proof.
  intros Htidy. split.
  - intros out st' Hout Hun st2.
    destruct (expand_result text m st out st' Hout) as (ws & Hws & ->).
    rewrite expand_unmatched by done.
    rewrite join_split_join; [done|].
    eapply map_m_tidy; [done|apply split_tokens|done].
  - intros Hne.
    destruct (expand_total text m st Hne) as (ws & st' & _ & Hout).
    by eexists _, _.
Qed.

End IdempotenceFacts.

Lemma example_map_tidy : tidy_candidates example_map.
Proof. apply (bool_decide_unpack _). vm_compute. exact I. Defined.

Lemma expand_idempotent_witness :
  tidy_candidates example_map
  ∧ expand_abbreviations scripted (lit "TXN for PMT") example_map [lit "Payment"]
    = (Ok (lit "Transaction for Payment"), [])
  ∧ unmatched example_map (lit "Transaction for Payment")
  ∧ expand_abbreviations scripted (lit "Transaction for Payment") example_map []
    = (Ok (lit "Transaction for Payment"), []).
Proof.
  assert (Hout : expand_abbreviations scripted (lit "TXN for PMT") example_map
                   [lit "Payment"]
                 = (Ok (lit "Transaction for Payment"), []))
    by (vm_compute; reflexivity).
  assert (Hun : unmatched example_map (lit "Transaction for Payment"))
    by (repeat constructor; vm_compute; reflexivity).
  split; [exact example_map_tidy|].
  split; [exact Hout|]. split; [exact Hun|].
  exact (proj1 (expand_idempotent scripted (lit "TXN for PMT") example_map
                  [lit "Payment"] example_map_tidy)
           (lit "Transaction for Payment") [] Hout Hun []).
Defined.

(** The expansion is not idempotent for every map: when a candidate has
    two spaces in a row, the expansion of "CK" has no key among its tokens,
    and expanding it again changes it. *)
Lemma expand_idempotent_counterexample :
  (expand_abbreviations scripted (lit "CK") spaced_map []).1
    = Ok (lit "bank  transfer")
  ∧ unmatched spaced_map (lit "bank  transfer")
  ∧ (expand_abbreviations scripted (lit "bank  transfer") spaced_map []).1
    = Ok (lit "bank transfer")
  ∧ (expand_abbreviations scripted (lit "bank  transfer") spaced_map []).1
    ≠ (expand_abbreviations scripted (lit "CK") spaced_map []).1.
Proof.
  split; [vm_compute; reflexivity|].
  split; [repeat constructor; vm_compute; reflexivity|].
  split; [vm_compute; reflexivity|].
  vm_compute. discriminate.
Qed.

(** ** Tables *)

Lemma get_loc_Some cols label i :
  get_loc cols label = Some i → cols !! i = Some label.
Proof.
  unfold get_loc. destruct (list_find _ cols) as [[j x]|] eqn:Hfind; [|done].
  intros [= <-]. apply list_find_Some in Hfind as (Hj & -> & _). done.
Qed.

Lemma get_loc_None cols label : get_loc cols label = None ↔ label ∉ cols.
Proof.
  unfold get_loc. rewrite fmap_None, list_find_None, Forall_forall.
  split.
  - intros H Hin. by apply (H label).
  - intros H x Hx ->. done.
Qed.

Lemma get_loc_is_Some cols label : label ∈ cols → is_Some (get_loc cols label).
Proof.
  intros Hin. destruct (get_loc cols label) eqn:H; [done|].
  by apply get_loc_None in H.
Qed.

Lemma get_loc_app_l cols extra label :
  label ∈ cols → get_loc (cols ++ extra) label = get_loc cols label.
Proof.
  intros Hin. unfold get_loc.
  destruct (list_find_elem_of (λ c, c = label) cols label Hin eq_refl)
    as [[i x] Hfind].
  by rewrite (list_find_app_l _ _ _ _ _ Hfind), Hfind.
Qed.

Lemma get_loc_app_ne cols label label' :
  label' ≠ label → get_loc (cols ++ [label]) label' = get_loc cols label'.
Proof.
  intros Hne. destruct (decide (label' ∈ cols)) as [Hin|Hnin].
  - by apply get_loc_app_l.
  - rewrite (proj2 (get_loc_None cols label')) by done.
    apply get_loc_None. rewrite elem_of_app, list_elem_of_singleton. tauto.
Qed.

Lemma get_loc_app_new cols label :
  label ∉ cols → get_loc (cols ++ [label]) label = Some (length cols).
Proof.
  intros Hnin. unfold get_loc.
  rewrite list_find_app_r by (by apply list_find_None, Forall_forall; intros x Hx ->).
  simpl. rewrite decide_True by done. simpl. by rewrite ?Nat.add_0_r.
Qed.

Lemma get_loc_lt cols label i : get_loc cols label = Some i → (i < length cols)%nat.
Proof. intros H. apply get_loc_Some in H. by eapply lookup_lt_Some. Qed.

Lemma get_loc_inj cols label label' i :
  get_loc cols label = Some i → get_loc cols label' = Some i → label = label'.
Proof.
  intros H H'. apply get_loc_Some in H. apply get_loc_Some in H'. congruence.
Qed.

Lemma map_zip_with_keep {A B C} (f : A → C) (g : A → B → A) xs ys :
  length ys = length xs →
  (∀ x y, x ∈ xs → f (g x y) = f x) →
  map f (zip_with g xs ys) = map f xs.
Proof.
  revert ys. induction xs as [|x xs IH]; intros [|y ys] Hlen Hf; try done.
  simpl. rewrite Hf by (by left). f_equal. apply IH; [by injection Hlen|].
  intros x' y' Hx'. apply Hf. by right.
Qed.

Lemma map_zip_with_set {A B} (f : A → B) (g : A → B → A) xs ys :
  length ys = length xs →
  (∀ x y, x ∈ xs → f (g x y) = y) →
  map f (zip_with g xs ys) = ys.
Proof.
  revert ys. induction xs as [|x xs IH]; intros [|y ys] Hlen Hf; try done.
  simpl. rewrite Hf by (by left). f_equal. apply IH; [by injection Hlen|].
  intros x' y' Hx'. apply Hf. by right.
Qed.

(** Setting a column leaves the other columns as they were. *)
Lemma column_set_column_ne df label values df' label' :
  rectangular df → label' ≠ label →
  set_column df label values = Ok df' →
  column df' label' = column df label'.
Proof.
  intros Hrect Hne. unfold set_column.
  destruct (length values =? len df)%nat eqn:Hlen; [|done].
  apply Nat.eqb_eq in Hlen. simpl.
  destruct (get_loc (columns df) label) as [i|] eqn:Hi; intros [= <-].
  - unfold column. simpl. destruct (get_loc (columns df) label') as [j|] eqn:Hj;
      [|done].
    f_equal. apply map_zip_with_keep; [done|].
    intros row v _. rewrite list_lookup_insert_ne; [done|].
    intros ->. apply Hne. by eapply get_loc_inj.
  - unfold column. simpl. rewrite get_loc_app_ne by done.
    destruct (get_loc (columns df) label') as [j|] eqn:Hj; [|done].
    f_equal. apply map_zip_with_keep; [done|].
    intros row v Hrow. rewrite lookup_app_l; [done|].
    unfold rectangular in Hrect. rewrite Forall_forall in Hrect.
    rewrite (Hrect row Hrow). by eapply get_loc_lt.
Qed.

(** Reading back the column that was set. *)
Lemma column_set_column df label values df' :
  rectangular df →
  set_column df label values = Ok df' →
  column df' label = Ok values.
Proof.
  intros Hrect. unfold set_column.
  destruct (length values =? len df)%nat eqn:Hlen; [|done].
  apply Nat.eqb_eq in Hlen. simpl.
  unfold rectangular in Hrect. rewrite Forall_forall in Hrect.
  destruct (get_loc (columns df) label) as [i|] eqn:Hi; intros [= <-].
  - unfold column. simpl. rewrite Hi.
    f_equal. apply map_zip_with_set; [done|].
    intros row v Hrow. rewrite list_lookup_insert_eq; [done|].
    rewrite (Hrect row Hrow). by eapply get_loc_lt.
  - unfold column. simpl.
    rewrite get_loc_app_new by (by apply get_loc_None).
    f_equal. apply map_zip_with_set; [done|].
    intros row v Hrow. rewrite lookup_app_r by (by rewrite (Hrect row Hrow)).
    rewrite (Hrect row Hrow), Nat.sub_diag. done.
Qed.

Lemma length_column df label xs : column df label = Ok xs → length xs = len df.
Proof.
  unfold column. destruct (get_loc _ _); [|done].
  intros [= <-]. by rewrite length_map.
Qed.

Lemma texts_Str names : texts (map Str names) = Ok names.
Proof. induction names as [|s names IH]; [done|]. simpl. by rewrite IH. Qed.

Lemma texts_astype_Str keeps_missing remarks :
  texts (map (astype_str keeps_missing) (map Str remarks)) = Ok remarks.
Proof. induction remarks as [|s remarks IH]; [done|]. simpl. by rewrite IH. Qed.

Lemma texts_Raise xs e : texts xs = Raise e → e = TypeError.
Proof.
  induction xs as [|[|s] xs IH]; simpl; [done|by intros [= <-]|].
  destruct (texts xs); [done|]. intros [= <-]. by apply IH.
Qed.

(** ** The classification prompt *)

Section ScriptFacts.

Context {LLM : Type} (chat : LLM → pystr → pystr * LLM).

Lemma remark_labels_differ : lit "REMARK_CLEAN" ≠ lit "REMARK".
Proof. vm_compute. discriminate. Qed.

Lemma apply_expand_total m xs acc st :
  nonempty_lists m →
  ∃ exps st',
    for_each xs acc
      (λ acc x, y <- expand_abbreviations chat (str x) m ;; ret (acc ++ [y])) st
    = (Ok (acc ++ exps), st')
    ∧ length exps = length xs.
Proof.
  intros Hm. revert acc st. induction xs as [|x xs IH]; intros acc st.
  - exists [], st. by rewrite app_nil_r.
  - cbn [for_each]. unfold bind at 1 2.
    destruct (expand_total chat (str x) m st Hm) as (ws & st1 & _ & ->).
    unfold ret at 1.
    destruct (IH (acc ++ [join sp ws]) st1) as (exps & st2 & -> & Hlen).
    exists (join sp ws :: exps), st2. split.
    + by rewrite <- app_assoc.
    + simpl. by rewrite Hlen.
Qed.

(** C7: on a rectangular transactions table whose REMARK_CLEAN cells are
    text, a categories table whose first column is text, and a map without
    empty candidate lists, the script reaches the classification call; the
    prompt holds the REMARK_CLEAN texts joined by newlines, as they were
    before expansion, whatever [astype(str)] does with a missing cell; the
    expansions are stored in the column REMARK and appear nowhere in the
    prompt's construction. *)
Theorem prompt_from_raw_remarks keeps_missing categories_df transactions_df m st
    remarks names :
  rectangular transactions_df →
  nonempty_lists m →
  column transactions_df (lit "REMARK_CLEAN") = Ok (map Str remarks) →
  first_column categories_df = Ok (map Str names) →
  ∃ df' exps st',
    prepare chat keeps_missing categories_df transactions_df m st
    = (Ok (df',
           classify_prompt_1 ++ join (lit ", ") names ++ classify_prompt_2
           ++ join [10] remarks ++ classify_prompt_3),
       st')
    ∧ series_apply (λ x, expand_abbreviations chat (str x) m) (map Str remarks) st
      = (Ok exps, st')
    ∧ column df' (lit "REMARK") = Ok (map Str exps)
    ∧ column df' (lit "REMARK_CLEAN") = Ok (map Str remarks).
Proof.
  intros Hrect Hm Hraws Hcats.
  destruct (apply_expand_total m (map Str remarks) [] st Hm)
    as (exps & st' & Happly & Hlen).
  cbn [app] in Happly.
  assert (∃ df', set_column transactions_df (lit "REMARK") (map Str exps) = Ok df')
    as [df' Hset].
  { unfold set_column. rewrite length_map, Hlen, (length_column _ _ _ Hraws).
    rewrite Nat.eqb_refl. simpl. destruct (get_loc _ _); by eexists. }
  assert (column df' (lit "REMARK_CLEAN") = Ok (map Str remarks)) as Hclean.
  { by rewrite (column_set_column_ne _ _ _ _ _ Hrect remark_labels_differ Hset). }
  exists df', exps, st'. split; [|split; [done|split; [|done]]].
  - unfold prepare, expand_transactions, bind, lift, series_apply.
    rewrite Hcats, Hraws. unfold ret at 1 2. rewrite Happly, Hset.
    unfold ret at 1. unfold transactions_text.
    rewrite Hclean, texts_astype_Str.
    unfold ret at 1. unfold classification_prompt. by rewrite texts_Str.
  - by eapply column_set_column.
Qed.

End ScriptFacts.

Lemma rectangular_example_transactions : rectangular example_transactions.
Proof. repeat constructor. Defined.

Lemma prompt_from_raw_remarks_witness :
  rectangular example_transactions
  ∧ nonempty_lists example_map
  ∧ column example_transactions (lit "REMARK_CLEAN")
    = Ok (map Str [lit "TXN for PMT"; lit "paid in cash"])
  ∧ first_column example_categories = Ok (map Str [lit "Bills"; lit "Other"])
  ∧ ∃ df' exps st',
      prepare scripted true example_categories example_transactions example_map
        [lit "Payment"]
      = (Ok (df',
             classify_prompt_1 ++ join (lit ", ") [lit "Bills"; lit "Other"]
             ++ classify_prompt_2
             ++ join [10] [lit "TXN for PMT"; lit "paid in cash"]
             ++ classify_prompt_3),
         st')
      ∧ series_apply (λ x, expand_abbreviations scripted (str x) example_map)
          (map Str [lit "TXN for PMT"; lit "paid in cash"]) [lit "Payment"]
        = (Ok exps, st')
      ∧ column df' (lit "REMARK") = Ok (map Str exps)
      ∧ column df' (lit "REMARK_CLEAN")
        = Ok (map Str [lit "TXN for PMT"; lit "paid in cash"]).
Proof.
  assert (Hne : nonempty_lists example_map) by apply load_nonempty.
  assert (Hraws : column example_transactions (lit "REMARK_CLEAN")
                  = Ok (map Str [lit "TXN for PMT"; lit "paid in cash"]))
    by (vm_compute; reflexivity).
  assert (Hcats : first_column example_categories
                  = Ok (map Str [lit "Bills"; lit "Other"]))
    by (vm_compute; reflexivity).
  split; [exact rectangular_example_transactions|].
  split; [exact Hne|]. split; [exact Hraws|]. split; [exact Hcats|].
  exact (prompt_from_raw_remarks scripted true example_categories
           example_transactions example_map [lit "Payment"] _ _
           rectangular_example_transactions Hne Hraws Hcats).
Defined.

(** On the example the stored expansion differs from the raw remark, and
    the prompt carries the raw remark, under either treatment of missing
    cells. *)
Example prepare_example :
  ∀ keeps_missing, ∃ df',
    prepare scripted keeps_missing example_categories example_transactions
      example_map [lit "Payment"]
    = (Ok (df',
           classify_prompt_1 ++ lit "Bills, Other" ++ classify_prompt_2
           ++ lit "TXN for PMT" ++ [10] ++ lit "paid in cash"
           ++ classify_prompt_3),
       [])
    ∧ column df' (lit "REMARK")
      = Ok [Str (lit "Transaction for Payment"); Str (lit "paid in cash")].
Proof. intros []; eexists; split; vm_compute; reflexivity. Qed.

(** A missing remark reaches the prompt as the text "nan" where
    [astype(str)] renders it, and makes line 155 raise TypeError where it
    stays missing. *)
Example transactions_text_missing :
  transactions_text false transactions_with_gap
  = Ok (lit "TXN  for PMT" ++ [10] ++ lit "nan")
  ∧ transactions_text true transactions_with_gap = Raise TypeError.
Proof. split; vm_compute; reflexivity. Qed.

(** ** Reconciliation *)

Lemma union_labels_NoDup acc labels :
  NoDup acc → NoDup (union_labels acc labels).
Proof.
  unfold union_labels. revert acc.
  induction labels as [|l labels IH]; intros acc Hacc; simpl; [done|].
  apply IH. case_bool_decide as Hin; [done|].
  apply NoDup_app. split; [done|]. split; [|apply NoDup_singleton].
  intros x Hx ->%list_elem_of_singleton. done.
Qed.

Lemma elem_of_union_labels acc labels l :
  l ∈ union_labels acc labels ↔ l ∈ acc ∨ l ∈ labels.
Proof.
  unfold union_labels. revert acc.
  induction labels as [|l' labels IH]; intros acc; simpl.
  - rewrite elem_of_nil. tauto.
  - rewrite IH, elem_of_cons. case_bool_decide as Hin.
    + split; [tauto|]. intros [?|[ -> |?]]; tauto.
    + rewrite elem_of_app, list_elem_of_singleton. tauto.
Qed.

Lemma filter_ext_elem {A} (P Q : A → Prop)
    `{∀ x, Decision (P x)} `{∀ x, Decision (Q x)} (l : list A) :
  (∀ x, x ∈ l → P x ↔ Q x) → filter P l = filter Q l.
Proof.
  induction l as [|x l IH]; intros HPQ; [done|].
  rewrite !filter_cons, IH by (intros y Hy; apply HPQ; by right).
  destruct (decide (P x)) as [HP|HP], (decide (Q x)) as [HQ|HQ]; try done;
    exfalso; apply (HPQ x) in HP || apply (HPQ x) in HQ; done || by left.
Qed.

(** With distinct labels, the union is the old labels followed by the new
    ones in their order. *)
Lemma union_labels_filter acc labels :
  NoDup labels →
  union_labels acc labels = acc ++ filter (λ l, l ∉ acc) labels.
Proof.
  unfold union_labels. intros Hnd. revert acc.
  induction Hnd as [|l labels Hl Hnd IH]; intros acc; simpl.
  - by rewrite app_nil_r.
  - rewrite IH. case_bool_decide as Hin.
    + by rewrite filter_cons_False by tauto.
    + rewrite filter_cons_True by done. rewrite <- app_assoc. simpl.
      do 2 f_equal. apply filter_ext_elem. intros x Hx.
      rewrite elem_of_app, list_elem_of_singleton.
      split; [tauto|]. intros Hnx [?| ->]; tauto.
Qed.

Lemma union_labels_prefix acc labels :
  ∃ extra, union_labels acc labels = acc ++ extra.
Proof.
  unfold union_labels. revert acc.
  induction labels as [|l labels IH]; intros acc; simpl.
  - exists []. by rewrite app_nil_r.
  - case_bool_decide; [apply IH|].
    destruct (IH (acc ++ [l])) as [extra ->].
    exists (l :: extra). by rewrite <- app_assoc.
Qed.

(** *** Tables built from records and by concatenation *)

Lemma cell_at_row df i row label :
  data df !! i = Some row → label ∈ columns df →
  cell_at df i label = Some (row_get (columns df) row label).
Proof.
  intros Hrow Hin. unfold cell_at, row_get. rewrite Hrow.
  by destruct (get_loc_is_Some _ _ Hin) as [j ->].
Qed.

Lemma lookup_reindex (f : pystr → cell) cols j label :
  get_loc cols label = Some j → default NaN (map f cols !! j) = f label.
Proof.
  intros Hj%get_loc_Some.
  change (map f cols) with (f <$> cols). by rewrite list_lookup_fmap, Hj.
Qed.

(** A row laid out under the columns [cols] reads, under each of them, as
    the function that laid it out. *)
Lemma cell_at_reindex df i (f : pystr → cell) label :
  data df !! i = Some (map f (columns df)) → label ∈ columns df →
  cell_at df i label = Some (f label).
Proof.
  intros Hrow Hin. unfold cell_at. rewrite Hrow.
  destruct (get_loc_is_Some _ _ Hin) as [j Hj]. rewrite Hj.
  by rewrite (lookup_reindex f _ _ _ Hj).
Qed.

Lemma record_get_Some_key r key v : record_get r key = Some v → key ∈ map fst r.
Proof.
  induction r as [|[k v'] r IH]; [done|]. simpl.
  case_bool_decide as Hk; [intros _; subst; by left|].
  intros H. right. by apply IH.
Qed.

Lemma elem_of_fold_union_labels {A} (f : A → list pystr) xs acc l :
  l ∈ fold_left (λ acc x, union_labels acc (f x)) xs acc
  ↔ l ∈ acc ∨ ∃ x, x ∈ xs ∧ l ∈ f x.
Proof.
  revert acc. induction xs as [|x xs IH]; intros acc; simpl.
  - split; [tauto|]. intros [?|(x & Hx & _)]; [done|]. by apply elem_of_nil in Hx.
  - rewrite IH, elem_of_union_labels. split.
    + intros [[?|?]|(y & Hy & ?)]; [tauto| |].
      * right. exists x. split; [by left|done].
      * right. exists y. split; [by right|done].
    + intros [?|(y & Hy & ?)]; [tauto|].
      apply elem_of_cons in Hy as [->|Hy]; [tauto|]. right. by exists y.
Qed.

Lemma fold_union_labels_NoDup {A} (f : A → list pystr) xs acc :
  NoDup acc → NoDup (fold_left (λ acc x, union_labels acc (f x)) xs acc).
Proof.
  revert acc. induction xs as [|x xs IH]; intros acc Hacc; simpl; [done|].
  by apply IH, union_labels_NoDup.
Qed.

Lemma len_DataFrame_of_records recs : len (DataFrame_of_records recs) = length recs.
Proof. unfold len, DataFrame_of_records. simpl. by rewrite length_map. Qed.

Lemma columns_DataFrame_of_records recs l :
  l ∈ columns (DataFrame_of_records recs) ↔ ∃ r, r ∈ recs ∧ l ∈ map fst r.
Proof.
  unfold DataFrame_of_records. simpl.
  rewrite (elem_of_fold_union_labels (λ r : record, map fst r)).
  rewrite elem_of_nil. split; [intros [[]|?]; done|by right].
Qed.

Lemma columns_DataFrame_of_records_NoDup recs :
  NoDup (columns (DataFrame_of_records recs)).
Proof. apply fold_union_labels_NoDup, NoDup_nil_2. Qed.

(** Row [i] of the table of the records holds the values of record [i]. *)
Lemma cell_at_DataFrame_of_records recs i r l :
  recs !! i = Some r → l ∈ columns (DataFrame_of_records recs) →
  cell_at (DataFrame_of_records recs) i l = Some (default NaN (record_get r l)).
Proof.
  intros Hr Hl.
  apply (cell_at_reindex _ _ (λ c, default NaN (record_get r c))); [|done].
  unfold DataFrame_of_records. simpl.
  change (map ?f recs) with (f <$> recs). by rewrite list_lookup_fmap, Hr.
Qed.

Lemma cell_at_record recs i r l v :
  recs !! i = Some r → record_get r l = Some v →
  cell_at (DataFrame_of_records recs) i l = Some v.
Proof.
  intros Hr Hv. rewrite (cell_at_DataFrame_of_records recs i r l Hr).
  - by rewrite Hv.
  - apply columns_DataFrame_of_records. exists r. split.
    + by eapply list_elem_of_lookup_2.
    + by eapply record_get_Some_key.
Qed.

Lemma union_labels_nil labels : NoDup labels → union_labels [] labels = labels.
Proof.
  intros Hnd. rewrite union_labels_filter by done. simpl.
  clear Hnd. induction labels as [|l labels IH]; [done|].
  rewrite filter_cons_True by apply not_elem_of_nil. by rewrite IH.
Qed.

Lemma columns_concat2 a b :
  NoDup (columns a) → NoDup (columns b) →
  columns (pd_concat [a; b]) = columns a ++ filter (λ l, l ∉ columns a) (columns b).
Proof.
  intros Ha Hb. unfold pd_concat. simpl.
  by rewrite union_labels_nil, union_labels_filter.
Qed.

Lemma elem_of_columns_concat2 a b l :
  l ∈ columns (pd_concat [a; b]) ↔ l ∈ columns a ∨ l ∈ columns b.
Proof.
  unfold pd_concat. simpl. rewrite !elem_of_union_labels, elem_of_nil. tauto.
Qed.

Lemma data_concat2 a b :
  data (pd_concat [a; b]) =
  map (λ row, map (row_get (columns a) row) (columns (pd_concat [a; b]))) (data a)
  ++ map (λ row, map (row_get (columns b) row) (columns (pd_concat [a; b]))) (data b).
Proof. unfold pd_concat. simpl. by rewrite app_nil_r. Qed.

Lemma len_concat2 a b : len (pd_concat [a; b]) = (len a + len b)%nat.
Proof. unfold len. by rewrite data_concat2, length_app, !length_map. Qed.

(** In a concatenation the rows of the first table come first. *)
Lemma cell_at_concat2_l a b i row l :
  data a !! i = Some row → l ∈ columns (pd_concat [a; b]) →
  cell_at (pd_concat [a; b]) i l = Some (row_get (columns a) row l).
Proof.
  intros Hrow Hl. apply (cell_at_reindex _ _ (row_get (columns a) row)); [|done].
  rewrite data_concat2.
  rewrite lookup_app_l by (rewrite length_map; by eapply lookup_lt_Some).
  change (map ?f (data a)) with (f <$> data a). by rewrite list_lookup_fmap, Hrow.
Qed.

(** The rows of the second table follow. *)
Lemma cell_at_concat2_r a b j row l :
  data b !! j = Some row → l ∈ columns (pd_concat [a; b]) →
  cell_at (pd_concat [a; b]) (len a + j) l = Some (row_get (columns b) row l).
Proof.
  intros Hrow Hl. apply (cell_at_reindex _ _ (row_get (columns b) row)); [|done].
  rewrite data_concat2.
  rewrite lookup_app_r by (rewrite length_map; unfold len; lia).
  rewrite length_map. unfold len.
  replace (length (data a) + j - length (data a))%nat with j by lia.
  change (map ?f (data b)) with (f <$> data b). by rewrite list_lookup_fmap, Hrow.
Qed.

Lemma row_get_absent cols row l : l ∉ cols → row_get cols row l = NaN.
Proof. intros Hl. unfold row_get. by rewrite (proj2 (get_loc_None cols l)). Qed.

Lemma row_get_record_table recs r l :
  l ∈ columns (DataFrame_of_records recs) →
  row_get (columns (DataFrame_of_records recs))
    (map (λ c, default NaN (record_get r c)) (columns (DataFrame_of_records recs))) l
  = default NaN (record_get r l).
Proof.
  intros Hl. unfold row_get. destruct (get_loc_is_Some _ _ Hl) as [j Hj].
  rewrite Hj. by rewrite (lookup_reindex _ _ _ _ Hj).
Qed.

(** *** The rows given the fallback category *)

Lemma columns_uncategorized_rows df recs :
  columns (uncategorized_rows df recs) =
  if decide (lit "category" ∈ columns df) then columns df
  else columns df ++ [lit "category"].
Proof.
  unfold uncategorized_rows, set_column_scalar, iloc_from. simpl.
  destruct (get_loc (columns df) (lit "category")) as [i|] eqn:Hi.
  - rewrite decide_True; [done|].
    apply get_loc_Some in Hi. by eapply list_elem_of_lookup_2.
  - rewrite decide_False; [done|]. by apply get_loc_None.
Qed.

Lemma len_uncategorized_rows df recs :
  len (uncategorized_rows df recs) = (len df - length recs)%nat.
Proof.
  unfold uncategorized_rows, set_column_scalar, iloc_from, len. simpl.
  destruct (get_loc _ _); simpl; by rewrite length_map, length_drop.
Qed.

(** Row [j] of the fallback rows is row [length recs + j] of the
    transactions table with the category set. *)
Lemma uncategorized_rows_row df recs j row :
  rectangular df →
  data df !! (length recs + j)%nat = Some row →
  ∃ row',
    data (uncategorized_rows df recs) !! j = Some row'
    ∧ row_get (columns (uncategorized_rows df recs)) row' (lit "category")
      = Str fallback_category
    ∧ ∀ l, l ≠ lit "category" →
        row_get (columns (uncategorized_rows df recs)) row' l
        = row_get (columns df) row l.
Proof.
  intros Hrect Hrow.
  assert (length row = length (columns df)) as Hlen.
  { unfold rectangular in Hrect. rewrite Forall_forall in Hrect.
    apply Hrect. by eapply list_elem_of_lookup_2. }
  unfold uncategorized_rows, set_column_scalar, iloc_from. simpl.
  destruct (get_loc (columns df) (lit "category")) as [i|] eqn:Hi; simpl.
  - exists (<[i := Str fallback_category]> row). split; [|split].
    + change (map ?f ?l) with (f <$> l).
      by rewrite list_lookup_fmap, lookup_drop, Hrow.
    + unfold row_get. rewrite Hi, list_lookup_insert_eq; [done|].
      rewrite Hlen. by eapply get_loc_lt.
    + intros l Hl. unfold row_get.
      destruct (get_loc (columns df) l) as [k|] eqn:Hk; [|done].
      rewrite list_lookup_insert_ne; [done|].
      intros ->. apply Hl. by eapply get_loc_inj.
  - exists (row ++ [Str fallback_category]). split; [|split].
    + change (map ?f ?l) with (f <$> l).
      by rewrite list_lookup_fmap, lookup_drop, Hrow.
    + unfold row_get. rewrite get_loc_app_new by (by apply get_loc_None).
      rewrite lookup_app_r by lia. by rewrite Hlen, Nat.sub_diag.
    + intros l Hl. unfold row_get. rewrite get_loc_app_ne by done.
      destruct (get_loc (columns df) l) as [k|] eqn:Hk; [|done].
      rewrite lookup_app_l; [done|]. rewrite Hlen. by eapply get_loc_lt.
Qed.

(** *** The reconciled table *)

Lemma categorized_df_short df recs :
  (length recs < len df)%nat →
  categorized_df df recs =
  pd_concat [DataFrame_of_records recs; uncategorized_rows df recs].
Proof.
  intros Hlt. unfold categorized_df.
  by rewrite (proj2 (Z.ltb_lt _ _)) by lia.
Qed.

Lemma categorized_df_full df recs :
  (len df ≤ length recs)%nat →
  categorized_df df recs = DataFrame_of_records recs.
Proof.
  intros Hle. unfold categorized_df.
  by rewrite (proj2 (Z.ltb_ge _ _)) by lia.
Qed.

Lemma category_in_uncategorized_rows df recs :
  lit "category" ∈ columns (uncategorized_rows df recs).
Proof.
  rewrite columns_uncategorized_rows. case_decide; [done|].
  apply elem_of_app. right. by left.
Qed.

Lemma columns_in_uncategorized_rows df recs l :
  l ∈ columns df → l ∈ columns (uncategorized_rows df recs).
Proof.
  intros Hl. rewrite columns_uncategorized_rows. case_decide; [done|].
  apply elem_of_app. by left.
Qed.

(** C2: when fewer records than transactions come back, the output has as
    many rows as there are transactions; row [i] carries the values of
    record [i] for every classified record; each later row carries the
    fallback category, which is the label of source line 188, and under
    every other column of the transactions table the cell of the
    transaction at the same position. *)
Theorem categorized_df_undercount df recs :
  rectangular df →
  (length recs < len df)%nat →
  len (categorized_df df recs) = len df
  ∧ (∀ i r l v,
       recs !! i = Some r → record_get r l = Some v →
       cell_at (categorized_df df recs) i l = Some v)
  ∧ (∀ i,
       (length recs ≤ i < len df)%nat →
       cell_at (categorized_df df recs) i (lit "category")
         = Some (Str (lit "Khác"))
       ∧ ∀ l, l ∈ columns df → l ≠ lit "category" →
           cell_at (categorized_df df recs) i l = cell_at df i l).
Proof.
  intros Hrect Hlt. rewrite categorized_df_short by done.
  split; [|split].
  - rewrite len_concat2, len_DataFrame_of_records, len_uncategorized_rows. lia.
  - intros i r l v Hr Hv.
    assert (l ∈ columns (DataFrame_of_records recs)) as Hl.
    { apply columns_DataFrame_of_records. exists r. split.
      - by eapply list_elem_of_lookup_2.
      - by eapply record_get_Some_key. }
    rewrite (cell_at_concat2_l _ _ i
               (map (λ c, default NaN (record_get r c))
                    (columns (DataFrame_of_records recs))) l).
    + by rewrite row_get_record_table, Hv.
    + unfold DataFrame_of_records at 1. simpl.
      change (map ?f recs) with (f <$> recs). by rewrite list_lookup_fmap, Hr.
    + apply elem_of_columns_concat2. by left.
  - intros i [Hle Hi].
    destruct (lookup_lt_is_Some_2 (data df) i Hi) as [row Hrow].
    replace i with (length recs + (i - length recs))%nat in Hrow |- * by lia.
    destruct (uncategorized_rows_row df recs _ row Hrect Hrow)
      as (row' & Hrow' & Hcat & Hother).
    assert (∀ l, l ∈ columns (uncategorized_rows df recs) →
              cell_at (pd_concat [DataFrame_of_records recs;
                                  uncategorized_rows df recs])
                (length recs + (i - length recs)) l
              = Some (row_get (columns (uncategorized_rows df recs)) row' l))
      as Hcell.
    { intros l Hl.
      pose proof (cell_at_concat2_r (DataFrame_of_records recs)
                    (uncategorized_rows df recs) _ row' l Hrow') as H.
      rewrite len_DataFrame_of_records in H. apply H.
      apply elem_of_columns_concat2. by right. }
    split.
    + rewrite Hcell by apply category_in_uncategorized_rows. by rewrite Hcat.
    + intros l Hl Hne.
      rewrite Hcell by (by apply columns_in_uncategorized_rows).
      rewrite Hother by done. symmetry. by apply cell_at_row.
Qed.

(** C5: when at least as many records as transactions come back, whether
    as many or more, the output is the table of the records as parsed: one
    row per record in order, each carrying the record's values, NaN where a
    record lacks a key that another has. *)
Theorem categorized_df_no_undercount df recs :
  (len df ≤ length recs)%nat →
  categorized_df df recs = DataFrame_of_records recs
  ∧ len (categorized_df df recs) = length recs
  ∧ (∀ i r l v,
       recs !! i = Some r → record_get r l = Some v →
       cell_at (categorized_df df recs) i l = Some v)
  ∧ (∀ i r l,
       recs !! i = Some r → l ∈ columns (categorized_df df recs) →
       record_get r l = None →
       cell_at (categorized_df df recs) i l = Some NaN).
Proof.
  intros Hle. rewrite categorized_df_full by done.
  split; [done|]. split; [apply len_DataFrame_of_records|]. split.
  - intros i r l v. apply cell_at_record.
  - intros i r l Hr Hl Hnone.
    by rewrite (cell_at_DataFrame_of_records recs i r l Hr Hl), Hnone.
Qed.

Lemma rectangular_five_transactions : rectangular five_transactions.
Proof. repeat constructor. Defined.

Lemma categorized_df_undercount_witness :
  rectangular five_transactions
  ∧ (length three_records < len five_transactions)%nat
  ∧ len (categorized_df five_transactions three_records) = len five_transactions
  ∧ (∀ i r l v,
       three_records !! i = Some r → record_get r l = Some v →
       cell_at (categorized_df five_transactions three_records) i l = Some v)
  ∧ (∀ i,
       (length three_records ≤ i < len five_transactions)%nat →
       cell_at (categorized_df five_transactions three_records) i (lit "category")
         = Some (Str (lit "Khác"))
       ∧ ∀ l, l ∈ columns five_transactions → l ≠ lit "category" →
           cell_at (categorized_df five_transactions three_records) i l
           = cell_at five_transactions i l).
Proof.
  assert (Hlt : (length three_records < len five_transactions)%nat)
    by (vm_compute; lia).
  split; [exact rectangular_five_transactions|]. split; [exact Hlt|].
  exact (categorized_df_undercount five_transactions three_records
           rectangular_five_transactions Hlt).
Defined.

(** Five transactions and three records: the output has five rows, and
    rows 4 and 5 carry the label of source line 188, which is not
    "Uncategorized". *)
Lemma fallback_label_counterexample :
  len five_transactions = 5%nat
  ∧ length three_records = 3%nat
  ∧ len (categorized_df five_transactions three_records) = 5%nat
  ∧ cell_at (categorized_df five_transactions three_records) 3 (lit "category")
    = Some (Str (lit "Khác"))
  ∧ cell_at (categorized_df five_transactions three_records) 4 (lit "category")
    = Some (Str (lit "Khác"))
  ∧ cell_at (categorized_df five_transactions three_records) 3 (lit "category")
    ≠ Some (Str (lit "Uncategorized"))
  ∧ cell_at (categorized_df five_transactions three_records) 4 (lit "category")
    ≠ Some (Str (lit "Uncategorized")).
Proof.
  repeat split; try (vm_compute; reflexivity); vm_compute; discriminate.
Qed.

Lemma categorized_df_no_undercount_witness :
  (len example_transactions ≤ length three_records)%nat
  ∧ categorized_df example_transactions three_records
    = DataFrame_of_records three_records
  ∧ len (categorized_df example_transactions three_records) = length three_records.
Proof.
  assert (Hle : (len example_transactions ≤ length three_records)%nat)
    by (vm_compute; lia).
  split; [exact Hle|].
  pose proof (categorized_df_no_undercount example_transactions three_records Hle)
    as (H1 & H2 & _).
  exact (conj H1 H2).
Defined.

Example categorized_df_equal_counts :
  categorized_df (iloc_from 2 five_transactions) three_records
  = {| columns := [lit "transaction"; lit "category"];
       data := [ [Str (lit "TXN rent"); Str (lit "Housing")];
                 [Str (lit "coffee"); Str (lit "Food")];
                 [Str (lit "TXN fuel"); Str (lit "Travel")] ] |}.
Proof. vm_compute. reflexivity. Qed.

(** *** The columns of the output *)

Lemma columns_uncategorized_rows_NoDup df recs :
  NoDup (columns df) → NoDup (columns (uncategorized_rows df recs)).
Proof.
  intros Hnd. rewrite columns_uncategorized_rows. case_decide as Hin; [done|].
  apply NoDup_app. split; [done|]. split; [|apply NoDup_singleton].
  intros x Hx ->%list_elem_of_singleton. done.
Qed.

Lemma fold_two_keys recs :
  Forall (λ r : record, map fst r = [lit "transaction"; lit "category"]) recs →
  fold_left (λ acc (r : record), union_labels acc (map fst r)) recs
    [lit "transaction"; lit "category"]
  = [lit "transaction"; lit "category"].
Proof.
  induction 1 as [|r recs Hr _ IH]; [done|].
  cbn [fold_left]. rewrite Hr.
  change (union_labels [lit "transaction"; lit "category"]
            [lit "transaction"; lit "category"])
    with [lit "transaction"; lit "category"].
  apply IH.
Qed.

Lemma columns_two_keys recs :
  recs ≠ [] →
  Forall (λ r : record, map fst r = [lit "transaction"; lit "category"]) recs →
  columns (DataFrame_of_records recs) = [lit "transaction"; lit "category"].
Proof.
  intros Hne Hkeys. unfold DataFrame_of_records. cbn [columns].
  destruct Hkeys as [|r recs Hr Hrecs]; [done|].
  cbn [fold_left]. rewrite Hr.
  change (union_labels [] [lit "transaction"; lit "category"])
    with [lit "transaction"; lit "category"].
  by apply fold_two_keys.
Qed.

(** A fallback row reads, under every column of the transactions table
    other than category, as the transaction at the same position. *)
Lemma cell_at_fallback_row df recs i l :
  rectangular df →
  (length recs ≤ i < len df)%nat →
  l ∈ columns df → l ≠ lit "category" →
  cell_at (pd_concat [DataFrame_of_records recs; uncategorized_rows df recs]) i l
  = cell_at df i l.
Proof.
  intros Hrect [Hle Hi] Hl Hne.
  destruct (lookup_lt_is_Some_2 (data df) i Hi) as [row Hrow].
  rewrite (cell_at_row df i row l Hrow Hl).
  replace i with (length recs + (i - length recs))%nat in Hrow |- * by lia.
  destruct (uncategorized_rows_row df recs _ row Hrect Hrow)
    as (row' & Hrow' & _ & Hother).
  pose proof (cell_at_concat2_r (DataFrame_of_records recs)
                (uncategorized_rows df recs) _ row' l Hrow') as H.
  rewrite len_DataFrame_of_records in H.
  rewrite H
    by (apply elem_of_columns_concat2; right;
        by apply columns_in_uncategorized_rows).
  by rewrite Hother.
Qed.

(** C9: without a shortfall the output has the columns of the records,
    which are transaction and category when every record has those two
    keys. With a shortfall the output has the columns of the records
    followed by the columns of the fallback rows that the records lack,
    where the fallback rows have the columns of the transactions table and
    category; every output row has one cell per output column; a fallback
    row holds NaN under a column that only the records have, and a
    classified row holds NaN under a column that only the transactions
    table has; and a fallback row of a rectangular transactions table
    holds, under every column of that table other than category, the cell
    of the transaction at the same position, its text under REMARK_CLEAN
    among them. *)
Theorem categorized_df_columns df recs :
  ((len df ≤ length recs)%nat →
   columns (categorized_df df recs) = columns (DataFrame_of_records recs))
  ∧ (recs ≠ [] →
     Forall (λ r : record, map fst r = [lit "transaction"; lit "category"]) recs →
     columns (DataFrame_of_records recs) = [lit "transaction"; lit "category"])
  ∧ ((length recs < len df)%nat → NoDup (columns df) →
     columns (categorized_df df recs)
     = columns (DataFrame_of_records recs)
       ++ filter (λ l, l ∉ columns (DataFrame_of_records recs))
            (if decide (lit "category" ∈ columns df) then columns df
             else columns df ++ [lit "category"]))
  ∧ ((length recs < len df)%nat →
     Forall (λ row, length row = length (columns (categorized_df df recs)))
       (data (categorized_df df recs))
     ∧ (∀ i l,
          (length recs ≤ i < len df)%nat →
          l ∈ columns (DataFrame_of_records recs) →
          l ∉ columns df → l ≠ lit "category" →
          cell_at (categorized_df df recs) i l = Some NaN)
     ∧ (∀ i l,
          (i < length recs)%nat →
          l ∈ columns (categorized_df df recs) →
          l ∉ columns (DataFrame_of_records recs) →
          cell_at (categorized_df df recs) i l = Some NaN)
     ∧ (rectangular df →
        ∀ i l,
          (length recs ≤ i < len df)%nat →
          l ∈ columns df → l ≠ lit "category" →
          cell_at (categorized_df df recs) i l = cell_at df i l)).
Proof.
  split; [|split; [|split]].
  - intros Hle. by rewrite categorized_df_full.
  - apply columns_two_keys.
  - intros Hlt Hnd. rewrite categorized_df_short by done.
    rewrite columns_concat2.
    + by rewrite columns_uncategorized_rows.
    + apply columns_DataFrame_of_records_NoDup.
    + by apply columns_uncategorized_rows_NoDup.
  - intros Hlt. rewrite categorized_df_short by done. split; [|split; [|split]].
    + rewrite data_concat2. apply Forall_app.
      split; apply Forall_forall; intros row' Hrow';
        apply list_elem_of_fmap in Hrow' as (row & -> & _);
        by rewrite length_map.
    + intros i l [Hle Hi] Hl Hndf Hncat.
      assert (l ∉ columns (uncategorized_rows df recs)) as Hnu.
      { rewrite columns_uncategorized_rows. case_decide; [done|].
        rewrite elem_of_app, list_elem_of_singleton. tauto. }
      assert (i - length recs < len (uncategorized_rows df recs))%nat as Hj
        by (rewrite len_uncategorized_rows; lia).
      destruct (lookup_lt_is_Some_2 _ _ Hj) as [row' Hrow'].
      pose proof (cell_at_concat2_r (DataFrame_of_records recs)
                    (uncategorized_rows df recs) _ row' l Hrow') as H.
      rewrite len_DataFrame_of_records in H.
      replace (length recs + (i - length recs))%nat with i in H by lia.
      rewrite H by (apply elem_of_columns_concat2; by left).
      by rewrite row_get_absent.
    + intros i l Hi Hl Hnrec.
      rewrite <- (len_DataFrame_of_records recs) in Hi.
      destruct (lookup_lt_is_Some_2 _ _ Hi) as [row Hrow].
      rewrite (cell_at_concat2_l _ _ i row l Hrow Hl).
      by rewrite row_get_absent.
    + intros Hrect i l Hi Hl Hne. by apply cell_at_fallback_row.
Qed.

Lemma categorized_df_columns_witness :
  (length three_records < len five_transactions)%nat
  ∧ NoDup (columns five_transactions)
  ∧ rectangular five_transactions
  ∧ columns (categorized_df five_transactions three_records)
    = columns (DataFrame_of_records three_records)
      ++ filter (λ l, l ∉ columns (DataFrame_of_records three_records))
           (if decide (lit "category" ∈ columns five_transactions)
            then columns five_transactions
            else columns five_transactions ++ [lit "category"])
  ∧ cell_at (categorized_df five_transactions three_records) 3 (lit "REMARK_CLEAN")
    = cell_at five_transactions 3 (lit "REMARK_CLEAN").
Proof.
  assert (Hlt : (length three_records < len five_transactions)%nat)
    by (vm_compute; lia).
  assert (Hnd : NoDup (columns five_transactions))
    by (apply (bool_decide_unpack _); vm_compute; exact I).
  assert (Hrow : (length three_records ≤ 3 < len five_transactions)%nat)
    by (vm_compute; lia).
  assert (Hin : lit "REMARK_CLEAN" ∈ columns five_transactions)
    by (apply (bool_decide_unpack _); vm_compute; exact I).
  assert (Hne : lit "REMARK_CLEAN" ≠ lit "category")
    by (vm_compute; discriminate).
  split; [exact Hlt|]. split; [exact Hnd|].
  split; [exact rectangular_five_transactions|].
  split.
  - exact (proj1 (proj2 (proj2
             (categorized_df_columns five_transactions three_records))) Hlt Hnd).
  - exact (proj2 (proj2 (proj2 (proj2 (proj2 (proj2
             (categorized_df_columns five_transactions three_records))) Hlt)))
             rectangular_five_transactions 3%nat (lit "REMARK_CLEAN") Hrow Hin Hne).
Defined.

(** The output does not always have just the columns transaction and
    category: on five transactions and three records it also has the
    columns of the transactions table, a fallback row has its text under
    REMARK_CLEAN and NaN under transaction, and a classified row the other
    way round. *)
Lemma output_shape_counterexample :
  columns (categorized_df five_transactions three_records)
  = [lit "transaction"; lit "category"; lit "REMARK_CLEAN"; lit "REMARK"]
  ∧ columns (categorized_df five_transactions three_records)
    ≠ [lit "transaction"; lit "category"]
  ∧ cell_at (categorized_df five_transactions three_records) 3 (lit "transaction")
    = Some NaN
  ∧ cell_at (categorized_df five_transactions three_records) 3 (lit "REMARK_CLEAN")
    = Some (Str (lit "books"))
  ∧ cell_at (categorized_df five_transactions three_records) 0 (lit "transaction")
    = Some (Str (lit "TXN rent"))
  ∧ cell_at (categorized_df five_transactions three_records) 0 (lit "REMARK_CLEAN")
    = Some NaN.
Proof.
  repeat split; try (vm_compute; reflexivity). vm_compute. discriminate.
Qed.


(** * Further properties *)

(** ** Which prompts the expansion sends *)

Section ModelCalls.

Context {LLM : Type} (chat : LLM → pystr → pystr * LLM).

Lemma resolve_logging abbreviation context possible_words st log :
  resolve_abbreviation_with_llm (logging chat) abbreviation context
    possible_words (st, log) =
  let r := resolve_abbreviation_with_llm chat abbreviation context
             possible_words st in
  (r.1, (r.2, log ++ [resolve_prompt abbreviation context possible_words])).
Proof.
  rewrite !resolve_unfold. unfold logging. cbn [fst snd].
  by destruct (chat st _) as [reply st'].
Qed.

Lemma expand_token_logging text m word st log :
  expand_token (logging chat) text m word (st, log) =
  let r := expand_token chat text m word st in
  (r.1, (r.2, log ++ prompts_of text m [word])).
Proof.
  unfold expand_token, prompts_of. cbn [flat_map].
  destruct (m !! word) as [[|w [|w' ws]]|];
    rewrite ?resolve_logging, ?app_nil_r; done.
Qed.

Lemma prompts_of_cons text m word words :
  prompts_of text m (word :: words)
  = prompts_of text m [word] ++ prompts_of text m words.
Proof. unfold prompts_of. cbn [flat_map]. by rewrite app_nil_r. Qed.

Lemma map_m_logging text m words st log ws st' :
  map_m (expand_token chat text m) words st = (Ok ws, st') →
  map_m (expand_token (logging chat) text m) words (st, log)
  = (Ok ws, (st', log ++ prompts_of text m words)).
Proof.
  revert st log ws. induction words as [|word words IH]; intros st log ws.
  - intros [= <- <-]. cbn. unfold ret. by rewrite app_nil_r.
  - cbn [map_m]. unfold bind. rewrite expand_token_logging. cbv zeta.
    destruct (expand_token chat text m word st) as [[w|e] st1]; [|done].
    cbn [fst snd].
    destruct (map_m (expand_token chat text m) words st1) as [[ws1|e] st2] eqn:Hws;
      [|done].
    intros [= <- <-]. rewrite (IH _ _ _ Hws). unfold ret.
    by rewrite (prompts_of_cons text m word words), app_assoc.
Qed.

(** X1: an expansion that returns sends the model exactly one prompt for
    each occurrence of a token that is a key without exactly one candidate,
    in token order, each built from that token, the whole text and the
    token's candidates; nothing is cached and no other prompt is sent. *)
Theorem expand_prompts text m st log out st' :
  expand_abbreviations chat text m st = (Ok out, st') →
  expand_abbreviations (logging chat) text m (st, log)
  = (Ok out, (st', log ++ prompts_of text m (split text))).
Proof.
  intros Hout.
  destruct (expand_result chat text m st out st' Hout) as (ws & Hws & ->).
  rewrite expand_abbreviations_eq_spec. unfold expand_spec, bind.
  by rewrite (map_m_logging _ _ _ _ _ _ _ Hws).
Qed.

End ModelCalls.

Lemma expand_prompts_witness :
  expand_abbreviations scripted (lit "PMT and PMT for TXN") example_map
    [lit "Permit"; lit "Payment"]
  = (Ok (lit "Permit and Payment for Transaction"), [])
  ∧ expand_abbreviations (logging scripted) (lit "PMT and PMT for TXN") example_map
      ([lit "Permit"; lit "Payment"], [])
    = (Ok (lit "Permit and Payment for Transaction"),
       ([], [] ++ prompts_of (lit "PMT and PMT for TXN") example_map
                    (split (lit "PMT and PMT for TXN"))))
  ∧ length (prompts_of (lit "PMT and PMT for TXN") example_map
              (split (lit "PMT and PMT for TXN"))) = 2%nat.
Proof.
  assert (H : expand_abbreviations scripted (lit "PMT and PMT for TXN")
                example_map [lit "Permit"; lit "Payment"]
              = (Ok (lit "Permit and Payment for Transaction"), []))
    by (vm_compute; reflexivity).
  split; [exact H|]. split; [|vm_compute; reflexivity].
  exact (expand_prompts scripted (lit "PMT and PMT for TXN") example_map
           [lit "Permit"; lit "Payment"] [] _ _ H).
Defined.

(** ** Expansions that do not depend on the model *)

Section ModelFree.

Context {LLM : Type} (chat : LLM → pystr → pystr * LLM).

Lemma map_m_unambiguous text m words st :
  Forall (unambiguous m) words →
  map_m (expand_token chat text m) words st = (Ok (map (substitute m) words), st).
Proof.
  induction 1 as [|word words Hword _ IH]; [done|].
  cbn [map_m map]. unfold bind, expand_token at 1, substitute at 1.
  unfold unambiguous in Hword.
  destruct (m !! word) as [[|w [|w' ws]]|]; try done;
    unfold ret at 1; by rewrite IH.
Qed.

(** X2: when every token of the text is either no key or a key with exactly
    one candidate, the expansion calls no model and returns the tokens,
    each key replaced by its candidate at every occurrence, joined by
    single spaces; the result is the same for every model. *)
Theorem expand_unambiguous text m st :
  Forall (unambiguous m) (split text) →
  expand_abbreviations chat text m st
  = (Ok (join sp (map (substitute m) (split text))), st).
Proof.
  intros Hun. rewrite expand_abbreviations_eq_spec.
  unfold expand_spec, bind. by rewrite map_m_unambiguous.
Qed.

Lemma map_m_first_candidate text m words st :
  nonempty_lists m →
  (∀ st p, map_Forall (λ _ ws, strip (chat st p).1 ∉ ws) m) →
  (map_m (expand_token chat text m) words st).1
  = Ok (map (first_candidate m) words).
Proof.
  intros Hne Hmiss. revert st. induction words as [|word words IH]; intros st.
  - done.
  - cbn [map_m map]. unfold bind.
    assert (∃ st1, expand_token chat text m word st
                   = (Ok (first_candidate m word), st1)) as [st1 ->].
    { unfold expand_token, first_candidate.
      destruct (m !! word) as [ws|] eqn:Hword; [|by eexists].
      pose proof (Hne word ws Hword) as Hws.
      destruct ws as [|w [|w' ws]]; [done|by eexists|].
      rewrite resolve_unfold. cbv zeta.
      rewrite bool_decide_false by (by eapply (Hmiss st _ word)).
      by eexists. }
    specialize (IH st1).
    destruct (map_m (expand_token chat text m) words st1) as [[ws1|e] st2];
      simpl in IH; [|done].
    injection IH as ->. done.
Qed.

(** X3: when no key has an empty candidate list and the model never
    replies with a candidate of the map, the expansion returns the tokens,
    each key replaced by its first candidate, joined by single spaces. *)
Theorem expand_first_candidates text m st :
  nonempty_lists m →
  (∀ st p, map_Forall (λ _ ws, strip (chat st p).1 ∉ ws) m) →
  (expand_abbreviations chat text m st).1
  = Ok (join sp (map (first_candidate m) (split text))).
Proof.
  intros Hne Hmiss. rewrite expand_abbreviations_eq_spec.
  unfold expand_spec, bind.
  pose proof (map_m_first_candidate text m (split text) st Hne Hmiss) as H.
  destruct (map_m (expand_token chat text m) (split text) st) as [[ws|e] st'];
    simpl in H; [|done].
  by injection H as ->.
Qed.

Lemma map_m_ext {A B} (f g : A → M (LLM := LLM) B) xs st :
  Forall (λ x, ∀ st, f x st = g x st) xs →
  map_m f xs st = map_m g xs st.
Proof.
  intros Hfg. revert st. induction Hfg as [|x xs Hx _ IH]; intros st; [done|].
  cbn [map_m]. unfold bind. rewrite Hx.
  destruct (g x st) as [[y|e] st1]; [|done]. by rewrite IH.
Qed.

Lemma expand_agree_on_tokens text m m' st :
  (∀ w, token w → m !! w = m' !! w) →
  expand_abbreviations chat text m st = expand_abbreviations chat text m' st.
Proof.
  intros Hagree. rewrite !expand_abbreviations_eq_spec.
  unfold expand_spec, bind.
  rewrite (map_m_ext (expand_token chat text m) (expand_token chat text m')).
  - done.
  - eapply Forall_impl; [apply split_tokens|].
    intros w Hw st0. unfold expand_token. by rewrite (Hagree w Hw).
Qed.

(** X4: a key that is empty or contains whitespace is never matched:
    adding it to the map, with any candidates, changes no expansion. *)
Theorem expand_ignores_non_token_key text m key candidates st :
  ¬ token key →
  expand_abbreviations chat text (<[key := candidates]> m) st
  = expand_abbreviations chat text m st.
Proof.
  intros Hkey. apply expand_agree_on_tokens.
  intros w Hw. rewrite lookup_insert_ne; [done|]. by intros ->.
Qed.

Lemma split_spaces text : Forall (λ c, isspace c = true) text → split text = [].
Proof.
  induction 1 as [|c text Hc _ IH]; [done|]. by rewrite split_cons, Hc.
Qed.

(** X5: on a text that is empty or all whitespace the expansion calls no
    model and returns the empty text, whatever the map. *)
Theorem expand_blank text m st :
  Forall (λ c, isspace c = true) text →
  expand_abbreviations chat text m st = (Ok [], st).
Proof.
  intros Hblank. rewrite expand_abbreviations_eq_spec.
  unfold expand_spec, bind. by rewrite split_spaces.
Qed.


End ModelFree.

Lemma expand_unambiguous_witness :
  Forall (unambiguous example_map) (split (lit "TXN  for rent"))
  ∧ expand_abbreviations scripted (lit "TXN  for rent") example_map [lit "Permit"]
    = (Ok (join sp (map (substitute example_map) (split (lit "TXN  for rent")))),
       [lit "Permit"])
  ∧ join sp (map (substitute example_map) (split (lit "TXN  for rent")))
    = lit "Transaction for rent".
Proof.
  assert (H : Forall (unambiguous example_map) (split (lit "TXN  for rent")))
    by (repeat constructor; vm_compute; exact I).
  split; [exact H|]. split; [|vm_compute; reflexivity].
  exact (expand_unambiguous scripted (lit "TXN  for rent") example_map
           [lit "Permit"] H).
Defined.

Lemma silent_misses_example_map :
  ∀ st p, map_Forall (λ _ ws, strip (silent st p).1 ∉ ws) example_map.
Proof. intros st p. apply (bool_decide_unpack _). vm_compute. exact I. Defined.

Lemma expand_first_candidates_witness :
  nonempty_lists example_map
  ∧ (∀ st p, map_Forall (λ _ ws, strip (silent st p).1 ∉ ws) example_map)
  ∧ (expand_abbreviations silent (lit "TXN for PMT") example_map tt).1
    = Ok (join sp (map (first_candidate example_map) (split (lit "TXN for PMT"))))
  ∧ join sp (map (first_candidate example_map) (split (lit "TXN for PMT")))
    = lit "Transaction for Payment".
Proof.
  assert (Hne : nonempty_lists example_map) by apply load_nonempty.
  split; [exact Hne|]. split; [exact silent_misses_example_map|].
  split; [|vm_compute; reflexivity].
  exact (expand_first_candidates silent (lit "TXN for PMT") example_map tt
           Hne silent_misses_example_map).
Defined.

Lemma padded_key_is_no_token : ¬ token (lit " PMT").
Proof. apply (bool_decide_unpack _). vm_compute. exact I. Defined.

Lemma expand_ignores_non_token_key_witness :
  ¬ token (lit " PMT")
  ∧ expand_abbreviations scripted (lit "TXN for  PMT")
      (<[lit " PMT" := [lit "Permanent"]]> example_map) [lit "Permit"]
    = expand_abbreviations scripted (lit "TXN for  PMT") example_map [lit "Permit"].
Proof.
  split; [exact padded_key_is_no_token|].
  exact (expand_ignores_non_token_key scripted (lit "TXN for  PMT") example_map
           (lit " PMT") [lit "Permanent"] [lit "Permit"] padded_key_is_no_token).
Defined.

Lemma expand_blank_witness :
  Forall (λ c, isspace c = true) [32; 9; 160; 10]
  ∧ expand_abbreviations scripted [32; 9; 160; 10] example_map [lit "Permit"]
    = (Ok [], [lit "Permit"]).
Proof.
  assert (H : Forall (λ c, isspace c = true) [32; 9; 160; 10])
    by (repeat constructor).
  split; [exact H|].
  exact (expand_blank scripted [32; 9; 160; 10] example_map [lit "Permit"] H).
Defined.


(** ** Trimming of the reply *)

Lemma lstrip_pad pad s :
  Forall (λ c, isspace c = true) pad → lstrip (pad ++ s) = lstrip s.
Proof. induction 1 as [|c pad Hc _ IH]; [done|]. simpl. by rewrite Hc. Qed.

Lemma lstrip_all_space s : Forall (λ c, isspace c = true) s → lstrip s = [].
Proof. induction 1 as [|c s Hc _ IH]; [done|]. simpl. by rewrite Hc. Qed.

Lemma lstrip_nil_all_space s : lstrip s = [] → Forall (λ c, isspace c = true) s.
Proof.
  induction s as [|c s IH]; [constructor|]. simpl.
  destruct (isspace c) eqn:Hc; [|done]. intros H. constructor; auto.
Qed.

Lemma lstrip_app s t : lstrip s ≠ [] → lstrip (s ++ t) = lstrip s ++ t.
Proof.
  induction s as [|c s IH]; [done|]. simpl. destruct (isspace c); [apply IH|done].
Qed.

Lemma rstrip_pad s pad :
  Forall (λ c, isspace c = true) pad → rstrip (s ++ pad) = rstrip s.
Proof.
  intros Hpad. unfold rstrip. rewrite rev_app_distr, lstrip_pad; [done|].
  by apply List.Forall_rev.
Qed.

(** Whitespace around a text does not change what [strip] returns. *)
Lemma strip_pad pad1 s pad2 :
  Forall (λ c, isspace c = true) pad1 →
  Forall (λ c, isspace c = true) pad2 →
  strip (pad1 ++ s ++ pad2) = strip s.
Proof.
  intros H1 H2. unfold strip. rewrite lstrip_pad by done.
  destruct (lstrip s) as [|c s'] eqn:Hs.
  - rewrite lstrip_all_space; [done|].
    apply Forall_app. split; [by apply lstrip_nil_all_space|done].
  - rewrite lstrip_app by (by rewrite Hs). rewrite Hs. by apply rstrip_pad.
Qed.

Section PaddedReply.

Context {LLM : Type} (chat : LLM → pystr → pystr * LLM).

(** X7: when the model replies with a candidate surrounded by whitespace,
    and the candidate itself has no whitespace at its ends, the resolver
    returns that candidate, wherever it stands in the list. *)
Theorem resolve_padded_reply abbreviation context possible_words st c pad1 pad2 :
  c ∈ possible_words →
  strip c = c →
  Forall (λ x, isspace x = true) pad1 →
  Forall (λ x, isspace x = true) pad2 →
  (chat st (resolve_prompt abbreviation context possible_words)).1
    = pad1 ++ c ++ pad2 →
  (resolve_abbreviation_with_llm chat abbreviation context possible_words st).1
    = Ok c.
Proof.
  intros Hin Hc H1 H2 Hreply. rewrite resolve_unfold. cbv zeta.
  rewrite Hreply, strip_pad, Hc by done.
  by rewrite bool_decide_true.
Qed.

End PaddedReply.

Lemma resolve_padded_reply_witness :
  lit "Permit" ∈ [lit "Payment"; lit "Permit"]
  ∧ strip (lit "Permit") = lit "Permit"
  ∧ Forall (λ x, isspace x = true) [32; 10]
  ∧ Forall (λ x, isspace x = true) [9]
  ∧ (resolve_abbreviation_with_llm scripted (lit "PMT") (lit "TXN for PMT")
       [lit "Payment"; lit "Permit"] [[32; 10] ++ lit "Permit" ++ [9]]).1
    = Ok (lit "Permit").
Proof.
  assert (H0 : lit "Permit" ∈ [lit "Payment"; lit "Permit"])
    by (apply (bool_decide_unpack _); vm_compute; exact I).
  assert (H1 : strip (lit "Permit") = lit "Permit") by (vm_compute; reflexivity).
  assert (H2 : Forall (λ x, isspace x = true) [32; 10]) by (repeat constructor).
  assert (H3 : Forall (λ x, isspace x = true) [9]) by (repeat constructor).
  split; [exact H0|]. split; [exact H1|]. split; [exact H2|]. split; [exact H3|].
  exact (resolve_padded_reply scripted (lit "PMT") (lit "TXN for PMT")
           [lit "Payment"; lit "Permit"] [[32; 10] ++ lit "Permit" ++ [9]]
           (lit "Permit") [32; 10] [9] H0 H1 H2 H3 eq_refl).
Defined.

(** ** Keys of the loaded dictionary *)

Lemma load_lookup df abbr :
  default [] (load_abbreviation_dict df !! abbr) = candidates_of abbr df.
Proof.
  unfold load_abbreviation_dict. by rewrite fold_add_row_lookup, lookup_empty.
Qed.

Lemma elem_of_candidates_of w abbr df :
  w ∈ candidates_of abbr df ↔
  ∃ row, row ∈ df
         ∧ abbr ∈ split_sep (lit ", ") (Abbreviation row)
         ∧ Full_words row = w.
Proof.
  unfold candidates_of. rewrite list_elem_of_In, in_flat_map. split.
  - intros (row & Hrow & Hw). apply in_flat_map in Hw as (a & Ha & Hw).
    case_bool_decide as Heq; [|done]. subst a.
    apply list_elem_of_In, list_elem_of_singleton in Hw as ->.
    exists row. by rewrite !list_elem_of_In.
  - intros (row & Hrow & Habbr & <-). exists row.
    split; [by apply list_elem_of_In|].
    apply in_flat_map. exists abbr. split; [by apply list_elem_of_In|].
    rewrite bool_decide_true by done. by left.
Qed.

Lemma split_sep_from_nonempty sep skip cur s : split_sep_from sep skip cur s ≠ [].
Proof.
  revert skip cur. induction s as [|c s IH]; intros skip cur; [done|].
  simpl. destruct skip; [|apply IH]. destruct (startswith sep (c :: s)); [done|apply IH].
Qed.

(** X8: for a dictionary table whose cells are all text, the keys of the
    loaded dictionary are exactly the abbreviations that some row lists in
    its cell split on ", "; the candidates under a key are exactly the full
    words of the rows that list it; and every row puts its full word under
    at least one key. *)
Theorem load_abbreviation_dict_keys df :
  (∀ abbr,
     is_Some (load_abbreviation_dict df !! abbr) ↔
     ∃ row, row ∈ df ∧ abbr ∈ split_sep (lit ", ") (Abbreviation row))
  ∧ (∀ abbr ws w,
       load_abbreviation_dict df !! abbr = Some ws →
       (w ∈ ws ↔
        ∃ row, row ∈ df
               ∧ abbr ∈ split_sep (lit ", ") (Abbreviation row)
               ∧ Full_words row = w))
  ∧ (∀ row,
       row ∈ df →
       ∃ abbr ws,
         load_abbreviation_dict df !! abbr = Some ws ∧ Full_words row ∈ ws).
Proof.
  split; [|split].
  - intros abbr. pose proof (load_lookup df abbr) as Hlk. split.
    + intros [ws Hws]. rewrite Hws in Hlk. simpl in Hlk.
      pose proof (load_nonempty df abbr ws Hws) as Hne.
      destruct ws as [|w ws]; [done|].
      assert (w ∈ candidates_of abbr df) as Hw by (rewrite <- Hlk; by left).
      apply elem_of_candidates_of in Hw as (row & Hrow & Habbr & _).
      by exists row.
    + intros (row & Hrow & Habbr).
      assert (Full_words row ∈ candidates_of abbr df) as Hw.
      { apply elem_of_candidates_of. by exists row. }
      rewrite <- Hlk in Hw.
      destruct (load_abbreviation_dict df !! abbr); [done|].
      by apply elem_of_nil in Hw.
  - intros abbr ws w Hws. pose proof (load_lookup df abbr) as Hlk.
    rewrite Hws in Hlk. simpl in Hlk. rewrite Hlk.
    apply elem_of_candidates_of.
  - intros row Hrow.
    destruct (split_sep (lit ", ") (Abbreviation row)) as [|abbr abbrs] eqn:Hsplit.
    { by apply split_sep_from_nonempty in Hsplit. }
    assert (Full_words row ∈ candidates_of abbr df) as Hw.
    { apply elem_of_candidates_of. exists row. rewrite Hsplit.
      split; [done|]. split; [by left|done]. }
    rewrite <- load_lookup in Hw.
    destruct (load_abbreviation_dict df !! abbr) as [ws|] eqn:Hws.
    + by exists abbr, ws.
    + by apply elem_of_nil in Hw.
Qed.

Lemma load_abbreviation_dict_keys_witness :
  {| Full_words := lit "Payment"; Abbreviation := lit "PMT, PM" |} ∈ example_dict
  ∧ ∃ abbr ws,
      load_abbreviation_dict example_dict !! abbr = Some ws
      ∧ Full_words {| Full_words := lit "Payment"; Abbreviation := lit "PMT, PM" |}
        ∈ ws.
Proof.
  assert (H : {| Full_words := lit "Payment"; Abbreviation := lit "PMT, PM" |}
              ∈ example_dict) by (right; left).
  split; [exact H|].
  exact (proj2 (proj2 (load_abbreviation_dict_keys example_dict)) _ H).
Defined.

(** X9: loading one table after another gives, under every key, the
    candidates of the first table followed by those of the second. *)
Theorem load_abbreviation_dict_app df1 df2 abbr :
  default [] (load_abbreviation_dict (df1 ++ df2) !! abbr)
  = default [] (load_abbreviation_dict df1 !! abbr)
    ++ default [] (load_abbreviation_dict df2 !! abbr).
Proof. by rewrite !load_lookup, candidates_of_app. Qed.

(** ** The script on malformed tables *)

Lemma Forall_zip_with_rows {A B} (P Q : A → Prop) (g : A → B → A) xs ys :
  Forall P xs → (∀ x y, P x → Q (g x y)) → Forall Q (zip_with g xs ys).
Proof.
  intros Hxs Hg. revert ys.
  induction Hxs as [|x xs Hx _ IH]; intros [|y ys]; simpl; try constructor; auto.
Qed.

Lemma set_column_shape df label values df' :
  rectangular df →
  set_column df label values = Ok df' →
  len df' = len df
  ∧ rectangular df'
  ∧ columns df' = (if decide (label ∈ columns df) then columns df
                   else columns df ++ [label]).
Proof.
  intros Hrect. unfold set_column.
  destruct (length values =? len df)%nat eqn:Hlen; [|done].
  apply Nat.eqb_eq in Hlen. simpl.
  destruct (get_loc (columns df) label) as [i|] eqn:Hi; intros [= <-];
    unfold len, rectangular in *; simpl.
  - split; [by rewrite length_zip_with_l_eq|]. split.
    + eapply Forall_zip_with_rows; [exact Hrect|].
      intros row v Hrow. by rewrite length_insert.
    + rewrite decide_True; [done|].
      apply get_loc_Some in Hi. by eapply list_elem_of_lookup_2.
  - split; [by rewrite length_zip_with_l_eq|]. split.
    + eapply Forall_zip_with_rows; [exact Hrect|].
      intros row v Hrow. simpl. rewrite !length_app, Hrow. done.
    + rewrite decide_False; [done|]. by apply get_loc_None.
Qed.

Lemma texts_NaN xs : NaN ∈ xs → texts xs = Raise TypeError.
Proof.
  induction xs as [|x xs IH]; [by intros ?%elem_of_nil|].
  intros [<-|Hin]%elem_of_cons; [done|].
  simpl. destruct x; [done|]. by rewrite IH.
Qed.

Section ScriptErrors.

Context {LLM : Type} (chat : LLM → pystr → pystr * LLM).

(** The expansion step succeeds on a well-formed table and sets REMARK to
    the expansions of the REMARK_CLEAN cells. *)
Lemma expand_transactions_ok transactions_df m st raws :
  rectangular transactions_df →
  nonempty_lists m →
  column transactions_df (lit "REMARK_CLEAN") = Ok raws →
  ∃ df' exps st',
    series_apply (λ x, expand_abbreviations chat (str x) m) raws st
      = (Ok exps, st')
    ∧ set_column transactions_df (lit "REMARK") (map Str exps) = Ok df'
    ∧ expand_transactions chat transactions_df m st = (Ok df', st').
Proof.
  intros Hrect Hm Hraws.
  destruct (apply_expand_total chat m raws [] st Hm) as (exps & st' & Happly & Hlen).
  simpl in Happly.
  assert (∃ df', set_column transactions_df (lit "REMARK") (map Str exps) = Ok df')
    as [df' Hset].
  { unfold set_column. rewrite length_map, Hlen, (length_column _ _ _ Hraws).
    rewrite Nat.eqb_refl. simpl. destruct (get_loc _ _); by eexists. }
  exists df', exps, st'. split; [done|]. split; [done|].
  unfold expand_transactions, bind, lift, series_apply.
  rewrite Hraws. unfold ret at 1. by rewrite Happly, Hset.
Qed.

Lemma column_is_Ok df label : label ∈ columns df → ∃ xs, column df label = Ok xs.
Proof.
  intros Hin. unfold column.
  destruct (get_loc_is_Some _ _ Hin) as [i ->]. by eexists.
Qed.

(** X10: a categories table without columns makes the script raise
    IndexError, and a transactions table without a REMARK_CLEAN column
    makes it raise KeyError; both happen before any call of the model. *)
Theorem prepare_malformed_tables keeps_missing categories_df transactions_df m st :
  (columns categories_df = [] →
   prepare chat keeps_missing categories_df transactions_df m st
   = (Raise IndexError, st))
  ∧ (columns categories_df ≠ [] →
     lit "REMARK_CLEAN" ∉ columns transactions_df →
     prepare chat keeps_missing categories_df transactions_df m st
     = (Raise KeyError, st)).
Proof.
  split.
  - intros Hcols. unfold prepare, bind, lift, first_column. by rewrite Hcols.
  - intros Hcols Hmissing.
    unfold prepare, expand_transactions, bind, lift, first_column, column.
    destruct (columns categories_df) as [|c cs]; [done|].
    by rewrite (proj2 (get_loc_None _ _) Hmissing).
Qed.

(** X11: a category that is not text (an empty cell) makes the script
    raise TypeError, but only when the prompt is built: by then every
    remark has been expanded and the model has been called for them;
    this under either treatment of missing cells by [astype(str)]. *)
Theorem prepare_non_text_category keeps_missing categories_df transactions_df m st
    cats raws :
  rectangular transactions_df →
  nonempty_lists m →
  column transactions_df (lit "REMARK_CLEAN") = Ok raws →
  first_column categories_df = Ok cats →
  NaN ∈ cats →
  ∃ exps st',
    series_apply (λ x, expand_abbreviations chat (str x) m) raws st
      = (Ok exps, st')
    ∧ prepare chat keeps_missing categories_df transactions_df m st
      = (Raise TypeError, st').
Proof.
  intros Hrect Hm Hraws Hcats Hnan.
  destruct (expand_transactions_ok transactions_df m st raws Hrect Hm Hraws)
    as (df' & exps & st' & Happly & Hset & Hexp).
  exists exps, st'. split; [done|].
  unfold prepare, bind, lift. rewrite Hcats. unfold ret at 1. rewrite Hexp.
  unfold transactions_text.
  rewrite (column_set_column_ne _ _ _ _ _ Hrect remark_labels_differ Hset), Hraws.
  destruct (texts (map (astype_str keeps_missing) raws)) as [lines|e] eqn:Hlines.
  - unfold ret at 1. unfold classification_prompt. by rewrite texts_NaN.
  - by apply texts_Raise in Hlines as ->.
Qed.

(** X12: on a rectangular table with a REMARK_CLEAN column and a map
    without empty candidate lists, the expansion step returns a table with
    the same number of rows, still rectangular, whose columns are those of
    the input with REMARK added last when it was not there; every column
    other than REMARK reads as before. *)
Theorem expand_transactions_keeps_table transactions_df m st :
  rectangular transactions_df →
  nonempty_lists m →
  lit "REMARK_CLEAN" ∈ columns transactions_df →
  ∃ df' st',
    expand_transactions chat transactions_df m st = (Ok df', st')
    ∧ len df' = len transactions_df
    ∧ rectangular df'
    ∧ columns df' = (if decide (lit "REMARK" ∈ columns transactions_df)
                     then columns transactions_df
                     else columns transactions_df ++ [lit "REMARK"])
    ∧ ∀ label, label ≠ lit "REMARK" →
        column df' label = column transactions_df label.
Proof.
  intros Hrect Hm Hin.
  destruct (column_is_Ok _ _ Hin) as [raws Hraws].
  destruct (expand_transactions_ok transactions_df m st raws Hrect Hm Hraws)
    as (df' & exps & st' & Happly & Hset & Hexp).
  destruct (set_column_shape _ _ _ _ Hrect Hset) as (Hlen & Hrect' & Hcols).
  exists df', st'. split; [done|]. split; [done|]. split; [done|].
  split; [done|].
  intros label Hne. by eapply column_set_column_ne.
Qed.

End ScriptErrors.

Lemma prepare_malformed_tables_witness :
  columns example_categories ≠ []
  ∧ (lit "REMARK_CLEAN" ∉ columns example_categories)
  ∧ prepare scripted true example_categories example_categories example_map
      [lit "Permit"]
    = (Raise KeyError, [lit "Permit"]).
Proof.
  assert (H1 : columns example_categories ≠ []) by discriminate.
  assert (H2 : lit "REMARK_CLEAN" ∉ columns example_categories)
    by (apply (bool_decide_unpack _); vm_compute; exact I).
  split; [exact H1|]. split; [exact H2|].
  exact (proj2 (prepare_malformed_tables scripted true example_categories
                  example_categories example_map [lit "Permit"]) H1 H2).
Defined.

Lemma prepare_non_text_category_witness :
  rectangular example_transactions
  ∧ nonempty_lists example_map
  ∧ column example_transactions (lit "REMARK_CLEAN")
    = Ok [Str (lit "TXN for PMT"); Str (lit "paid in cash")]
  ∧ first_column categories_with_gap = Ok [Str (lit "Bills"); NaN]
  ∧ NaN ∈ [Str (lit "Bills"); NaN]
  ∧ ∃ exps st',
      series_apply (λ x, expand_abbreviations scripted (str x) example_map)
        [Str (lit "TXN for PMT"); Str (lit "paid in cash")] [lit "Permit"]
      = (Ok exps, st')
      ∧ prepare scripted true categories_with_gap example_transactions
          example_map [lit "Permit"]
        = (Raise TypeError, st').
Proof.
  assert (Hne : nonempty_lists example_map) by apply load_nonempty.
  assert (Hraws : column example_transactions (lit "REMARK_CLEAN")
                  = Ok [Str (lit "TXN for PMT"); Str (lit "paid in cash")])
    by (vm_compute; reflexivity).
  assert (Hcats : first_column categories_with_gap = Ok [Str (lit "Bills"); NaN])
    by (vm_compute; reflexivity).
  assert (Hnan : NaN ∈ [Str (lit "Bills"); NaN]) by (right; left).
  split; [exact rectangular_example_transactions|].
  split; [exact Hne|]. split; [exact Hraws|]. split; [exact Hcats|].
  split; [exact Hnan|].
  exact (prepare_non_text_category scripted true categories_with_gap
           example_transactions example_map [lit "Permit"] _ _
           rectangular_example_transactions Hne Hraws Hcats Hnan).
Defined.

Lemma expand_transactions_keeps_table_witness :
  rectangular example_transactions
  ∧ nonempty_lists example_map
  ∧ lit "REMARK_CLEAN" ∈ columns example_transactions
  ∧ ∃ df' st',
      expand_transactions scripted example_transactions example_map [lit "Permit"]
      = (Ok df', st')
      ∧ len df' = len example_transactions
      ∧ rectangular df'
      ∧ columns df' = (if decide (lit "REMARK" ∈ columns example_transactions)
                       then columns example_transactions
                       else columns example_transactions ++ [lit "REMARK"])
      ∧ ∀ label, label ≠ lit "REMARK" →
          column df' label = column example_transactions label.
Proof.
  assert (Hne : nonempty_lists example_map) by apply load_nonempty.
  assert (Hin : lit "REMARK_CLEAN" ∈ columns example_transactions)
    by (apply (bool_decide_unpack _); vm_compute; exact I).
  split; [exact rectangular_example_transactions|].
  split; [exact Hne|]. split; [exact Hin|].
  exact (expand_transactions_keeps_table scripted example_transactions example_map
           [lit "Permit"] rectangular_example_transactions Hne Hin).
Defined.

(** ** Remarks without keys *)

Section PlainRemarks.

Context {LLM : Type} (chat : LLM → pystr → pystr * LLM).

Lemma for_each_collect {A} (f : cell → M (LLM := LLM) A) xs acc st out st' :
  for_each xs acc (λ acc x, y <- f x ;; ret (acc ++ [y])) st = (Ok out, st') →
  ∃ ys, out = acc ++ ys
        ∧ Forall2 (λ x y, ∃ s1 s2, f x s1 = (Ok y, s2)) xs ys.
Proof.
  revert acc st. induction xs as [|x xs IH]; intros acc st.
  - intros [= <- _]. exists []. by rewrite app_nil_r.
  - cbn [for_each]. unfold bind at 1 2.
    destruct (f x st) as [[y|e] s1] eqn:Hy; [|done]. unfold ret at 1.
    intros Hrest. destruct (IH _ _ Hrest) as (ys & -> & Hys).
    exists (y :: ys). split; [by rewrite <- app_assoc|].
    constructor; [by eexists _, _|done].
Qed.

(** X13: on a well-formed table the expansion step stores, for every
    remark none of whose tokens is a key, the remark's tokens joined by
    single spaces; an empty remark cell, read as NaN, is stored as the text
    "nan" unless nan is a key. *)
Theorem expand_transactions_plain_remarks transactions_df m st raws :
  rectangular transactions_df →
  nonempty_lists m →
  column transactions_df (lit "REMARK_CLEAN") = Ok raws →
  ∃ df' st' remarks,
    expand_transactions chat transactions_df m st = (Ok df', st')
    ∧ column df' (lit "REMARK") = Ok remarks
    ∧ (∀ i x, raws !! i = Some x → unmatched m (str x) →
         remarks !! i = Some (Str (join sp (split (str x)))))
    ∧ (∀ i, raws !! i = Some NaN → m !! lit "nan" = None →
         remarks !! i = Some (Str (lit "nan"))).
Proof.
  intros Hrect Hm Hraws.
  destruct (expand_transactions_ok chat transactions_df m st raws Hrect Hm Hraws)
    as (df' & exps & st' & Happly & Hset & Hexp).
  exists df', st', (map Str exps). split; [done|].
  split; [by eapply column_set_column|].
  unfold series_apply in Happly.
  destruct (for_each_collect _ _ _ _ _ _ Happly) as (ys & Hys & Hall).
  simpl in Hys. subst ys.
  assert (∀ i x, raws !! i = Some x → unmatched m (str x) →
            map Str exps !! i = Some (Str (join sp (split (str x))))) as Hplain.
  { intros i x Hx Hun.
    destruct (Forall2_lookup_l _ _ _ _ _ Hall Hx) as (y & Hy & s1 & s2 & Hrun).
    rewrite (expand_unmatched chat _ _ s1 Hun) in Hrun. injection Hrun as <- _.
    change (map Str exps) with (Str <$> exps).
    by rewrite list_lookup_fmap, Hy. }
  split; [exact Hplain|].
  intros i Hi Hnan. apply (Hplain i NaN Hi).
  unfold unmatched. by repeat constructor.
Qed.

End PlainRemarks.

Lemma expand_transactions_plain_remarks_witness :
  rectangular transactions_with_gap
  ∧ nonempty_lists example_map
  ∧ column transactions_with_gap (lit "REMARK_CLEAN")
    = Ok [Str (lit "TXN  for PMT"); NaN]
  ∧ [Str (lit "TXN  for PMT"); NaN] !! 1%nat = Some NaN
  ∧ example_map !! lit "nan" = None
  ∧ ∃ df' st' remarks,
      expand_transactions scripted transactions_with_gap example_map [lit "Permit"]
      = (Ok df', st')
      ∧ column df' (lit "REMARK") = Ok remarks
      ∧ remarks !! 1%nat = Some (Str (lit "nan")).
Proof.
  assert (Hrect : rectangular transactions_with_gap) by (repeat constructor).
  assert (Hne : nonempty_lists example_map) by apply load_nonempty.
  assert (Hraws : column transactions_with_gap (lit "REMARK_CLEAN")
                  = Ok [Str (lit "TXN  for PMT"); NaN])
    by (vm_compute; reflexivity).
  assert (Hrow : [Str (lit "TXN  for PMT"); NaN] !! 1%nat = Some NaN)
    by reflexivity.
  assert (Hnan : example_map !! lit "nan" = None) by (vm_compute; reflexivity).
  split; [exact Hrect|]. split; [exact Hne|]. split; [exact Hraws|].
  split; [exact Hrow|]. split; [exact Hnan|].
  destruct (expand_transactions_plain_remarks scripted transactions_with_gap
              example_map [lit "Permit"] _ Hrect Hne Hraws)
    as (df' & st' & remarks & Hexp & Hcol & _ & Hgap).
  exists df', st', remarks. split; [exact Hexp|]. split; [exact Hcol|].
  exact (Hgap 1%nat Hrow Hnan).
Defined.

(** ** Reconciliation at the edges *)

Lemma get_loc_NoDup cols i label :
  NoDup cols → cols !! i = Some label → get_loc cols label = Some i.
Proof.
  intros Hnd Hi.
  destruct (get_loc_is_Some cols label (list_elem_of_lookup_2 _ _ _ Hi)) as [j Hj].
  rewrite Hj. f_equal. apply get_loc_Some in Hj.
  by eapply NoDup_lookup.
Qed.

(** A row laid out again under its own columns is the same row. *)
Lemma reindex_same cols row :
  NoDup cols → length row = length cols → map (row_get cols row) cols = row.
Proof.
  intros Hnd Hlen. apply list_eq. intros i.
  change (map ?f cols) with (f <$> cols). rewrite list_lookup_fmap.
  destruct (cols !! i) as [label|] eqn:Hi; simpl.
  - unfold row_get. rewrite (get_loc_NoDup _ _ _ Hnd Hi).
    destruct (lookup_lt_is_Some_2 row i) as [c Hc];
      [rewrite Hlen; by eapply lookup_lt_Some|].
    by rewrite Hc.
  - symmetry. apply lookup_ge_None. rewrite Hlen. by apply lookup_ge_None.
Qed.

Lemma set_column_scalar_rectangular df label value :
  rectangular df → rectangular (set_column_scalar df label value).
Proof.
  unfold rectangular, set_column_scalar. intros Hrect.
  destruct (get_loc (columns df) label); simpl;
    apply Forall_fmap; (eapply Forall_impl; [exact Hrect|]);
    intros row Hrow; simpl.
  - by rewrite length_insert.
  - by rewrite !length_app, Hrow.
Qed.

Lemma concat_after_empty df :
  rectangular df → NoDup (columns df) →
  pd_concat [DataFrame_of_records []; df] = df.
Proof.
  intros Hrect Hnd. unfold pd_concat. cbn [fold_left flat_map DataFrame_of_records
                                           columns data map].
  change (union_labels [] []) with (@nil pystr).
  rewrite union_labels_nil by done. cbn [app]. rewrite app_nil_r.
  destruct df as [cols rows]. cbn [columns data] in *. f_equal.
  unfold rectangular in Hrect. cbn [columns data] in Hrect.
  induction Hrect as [|row rows Hrow _ IH]; [done|].
  cbn [map]. by rewrite reindex_same, IH.
Qed.

(** X14: when the model returns no record at all, the output is the
    transactions table itself with the column category set to the
    fallback label in every row; when there are no transactions either,
    the output is the empty table without columns. *)
Theorem categorized_df_no_records df :
  rectangular df → NoDup (columns df) →
  ((0 < len df)%nat →
   categorized_df df [] = set_column_scalar df (lit "category") (Str (lit "Khác")))
  ∧ (len df = 0%nat →
     categorized_df df [] = {| columns := []; data := [] |}).
Proof.
  intros Hrect Hnd. split.
  - intros Hlen. rewrite categorized_df_short by (simpl; lia).
    assert (uncategorized_rows df []
            = set_column_scalar df (lit "category") (Str (lit "Khác"))) as Hu.
    { unfold uncategorized_rows, iloc_from. simpl. by destruct df. }
    rewrite concat_after_empty.
    + done.
    + rewrite Hu. by apply set_column_scalar_rectangular.
    + by apply columns_uncategorized_rows_NoDup.
  - intros Hlen. rewrite categorized_df_full by (simpl; lia). done.
Qed.

Lemma NoDup_five_transactions : NoDup (columns five_transactions).
Proof. apply (bool_decide_unpack _). vm_compute. exact I. Defined.

Lemma categorized_df_no_records_witness :
  rectangular five_transactions
  ∧ NoDup (columns five_transactions)
  ∧ (0 < len five_transactions)%nat
  ∧ categorized_df five_transactions []
    = set_column_scalar five_transactions (lit "category") (Str (lit "Khác")).
Proof.
  assert (Hlen : (0 < len five_transactions)%nat) by (vm_compute; lia).
  split; [exact rectangular_five_transactions|].
  split; [exact NoDup_five_transactions|]. split; [exact Hlen|].
  exact (proj1 (categorized_df_no_records five_transactions
                  rectangular_five_transactions NoDup_five_transactions) Hlen).
Defined.

(** X15: the output has as many rows as the larger of the number of
    transactions and the number of records: no transaction and no record
    is dropped. *)
Theorem len_categorized_df df recs :
  len (categorized_df df recs) = Nat.max (len df) (length recs).
Proof.
  destruct (decide (length recs < len df)%nat) as [Hlt|Hge].
  - rewrite categorized_df_short by done.
    rewrite len_concat2, len_DataFrame_of_records, len_uncategorized_rows. lia.
  - rewrite categorized_df_full by lia.
    rewrite len_DataFrame_of_records. lia.
Qed.

(** ** The loader and the expander together *)

(** X16: with a dictionary built by the loader from a table whose cells
    are all text, the expansion of any text returns for every model: the
    resolver is never handed an empty candidate list, so its fallback
    never raises IndexError. *)
Theorem expand_loaded_returns {LLM} (chat : LLM → pystr → pystr * LLM)
    df text st :
  ∃ out st',
    expand_abbreviations chat text (load_abbreviation_dict df) st = (Ok out, st').
Proof.
  destruct (expand_total chat text (load_abbreviation_dict df) st
              (load_nonempty df)) as (ws & st' & _ & Hout).
  by eexists _, _.
Qed.
